(** * AgriEcho PWA: the offline layer

    A shallow embedding of the client-side offline code of AgriEcho:
    - [Offline]: the [OfflineManager] class of offline.js (sync queue,
      connectivity handlers, retry timers),
    - [Weather]: the [OfflineWeatherManager] class of offline.js,
    - [SW]: the fetch handlers of the service worker sw.js.

    JavaScript runs these on one thread; an [async] function runs until its
    next [await] and is resumed later.  An [await]ed network call is therefore
    a suspended task of the state, and the environment (browser events, timer
    callbacks, settled promises) is a list of events. *)

From stdpp Require Import base option list gmap strings pretty.
From Stdlib Require Import ZArith Lia.

Local Open Scope string_scope.
Local Open Scope list_scope.
Local Open Scope Z_scope.

(** ** OfflineManager *)

Module Offline.

(** Identity of a queue item object.  [pendingItems], retry closures and
    [this.syncQueue] all hold references to the same objects. *)
Definition ref := nat.

(** The payload [data] of a queue item.  The code reads three of its fields
    ([removeFromLocalStorage]); [undefined] is [None].  The rest of the object
    is carried as it is. *)
Record payload := Payload {
  data_id : option Z;
  data_query : option string;
  data_timestamp : option Z;
  data_rest : string;
}.

#[export] Instance payload_eq_dec : EqDecision payload.
Proof. solve_decision. Defined.

(** A queue item, as built by [addToSyncQueue].  [item_id] is
    [Date.now() + Math.random()], kept as its two summands. *)
Record queueItem := QueueItem {
  item_id : Z * N;
  item_type : string;
  item_data : payload;
  item_endpoint : string;
  item_method : string;
  item_timestamp : Z;
  item_retries : Z;
  item_status : string;
  item_completedAt : option Z;
}.

Definition set_status (s : string) (it : queueItem) : queueItem :=
  QueueItem (item_id it) (item_type it) (item_data it) (item_endpoint it)
    (item_method it) (item_timestamp it) (item_retries it) s
    (item_completedAt it).

Definition set_retries (n : Z) (it : queueItem) : queueItem :=
  QueueItem (item_id it) (item_type it) (item_data it) (item_endpoint it)
    (item_method it) (item_timestamp it) n (item_status it)
    (item_completedAt it).

Definition set_completedAt (t : Z) (it : queueItem) : queueItem :=
  QueueItem (item_id it) (item_type it) (item_data it) (item_endpoint it)
    (item_method it) (item_timestamp it) (item_retries it) (item_status it)
    (Some t).

(** The keys of [localStorage] the class writes: each holds the JSON of a
    list. *)
Record storage := Storage {
  ls_syncQueue : list queueItem;
  ls_pendingSOSAlerts : list payload;
  ls_offlineVoiceQueries : list payload;
}.

(** A [fetch] the class has issued: the item it was issued for and the
    arguments of the call. *)
Record request := Request {
  rq_item : ref;
  rq_endpoint : string;
  rq_method : string;
  rq_body : payload;
}.

(** Who awaits a running [syncItem] call: the [for] loop of a
    [processSyncQueue] call, with the items it has still to visit, or a retry
    timer callback, which drops the promise. *)
Inductive caller :=
  | ByDrain (rest : list ref)
  | ByTimer.

(** Where a [syncItem] call is suspended. *)
Inductive await :=
  | AwaitFetch
  | AwaitJson.

Record task := Task {
  t_item : ref;
  t_caller : caller;
  t_await : await;
}.

(** How [await fetch(...)] settles: rejected, or a response with its [ok]
    flag. *)
Inductive fetchResult :=
  | FetchRejects
  | FetchResponse (ok : bool).

(** How [await response.json()] settles: rejected (or a value on which
    [result.success] throws), or a value with the truthiness of
    [result.success]. *)
Inductive jsonResult :=
  | JsonRejects
  | JsonValue (success : bool).

Record state := State {
  isOnline : bool;
  syncQueue : list ref;
  heap : gmap ref queueItem;
  allocated : ref;
  localStorage : storage;
  tasks : list (option task);
  timers : list (Z * ref);
  now : Z;
  sent : list request;
  drains : nat;
}.

(** [isOnline] and [syncQueue] are the fields of the object; [heap] holds the
    item objects and [allocated] the next free reference; [tasks] are the
    [syncItem] calls issued so far ([None] once settled) and [timers] the
    pending [setTimeout] callbacks with the time they are due; [now] is
    [Date.now()].  [sent] is the log of the [fetch] calls and [drains] the
    number of calls of [processSyncQueue]: they are written, never read. *)

Definition maxRetries : Z := 3.
Definition retryDelay : Z := 5000.

Definition with_isOnline (b : bool) (st : state) : state :=
  State b (syncQueue st) (heap st) (allocated st) (localStorage st)
    (tasks st) (timers st) (now st) (sent st) (drains st).

Definition with_queue (q : list ref) (ls : storage) (st : state) : state :=
  State (isOnline st) q (heap st) (allocated st) ls
    (tasks st) (timers st) (now st) (sent st) (drains st).

Definition with_heap (h : gmap ref queueItem) (st : state) : state :=
  State (isOnline st) (syncQueue st) h (allocated st) (localStorage st)
    (tasks st) (timers st) (now st) (sent st) (drains st).

Definition with_localStorage (ls : storage) (st : state) : state :=
  State (isOnline st) (syncQueue st) (heap st) (allocated st) ls
    (tasks st) (timers st) (now st) (sent st) (drains st).

Definition with_tasks (ts : list (option task)) (st : state) : state :=
  State (isOnline st) (syncQueue st) (heap st) (allocated st)
    (localStorage st) ts (timers st) (now st) (sent st) (drains st).

Definition with_timers (tm : list (Z * ref)) (st : state) : state :=
  State (isOnline st) (syncQueue st) (heap st) (allocated st)
    (localStorage st) (tasks st) tm (now st) (sent st) (drains st).

Definition with_now (t : Z) (st : state) : state :=
  State (isOnline st) (syncQueue st) (heap st) (allocated st)
    (localStorage st) (tasks st) (timers st) t (sent st) (drains st).

Definition with_sent (l : list request) (st : state) : state :=
  State (isOnline st) (syncQueue st) (heap st) (allocated st)
    (localStorage st) (tasks st) (timers st) (now st) l (drains st).

Definition with_drains (n : nat) (st : state) : state :=
  State (isOnline st) (syncQueue st) (heap st) (allocated st)
    (localStorage st) (tasks st) (timers st) (now st) (sent st) n.

(** [item.status] of the object behind a reference. *)
Definition status_of (h : gmap ref queueItem) (r : ref) : option string :=
  item_status <$> h !! r.

(** [this.syncQueue.filter(item => item.status === s)] *)
Definition with_status (s : string) (st : state) : list ref :=
  filter (λ r, status_of (heap st) r = Some s) (syncQueue st).

(** The snapshot [pendingItems] of [processSyncQueue]. *)
Definition pendingItems (st : state) : list ref := with_status "pending" st.

(** The filter of [saveSyncQueue]: pending, failed, or completed later than
    the cutoff ([item.completedAt && item.completedAt > cutoffTime], where 0
    and [undefined] are falsy). *)
Definition keep (cutoff : Z) (it : queueItem) : bool :=
  bool_decide (item_status it = "pending")
  || bool_decide (item_status it = "failed")
  || match item_completedAt it with
     | Some c => negb (c =? 0) && (cutoff <? c)
     | None => false
     end.

Definition keep_ref (cutoff : Z) (h : gmap ref queueItem) (r : ref) : bool :=
  match h !! r with
  | Some it => keep cutoff it
  | None => false
  end.

(** [saveSyncQueue()]: drop the old completed items, then write the JSON of
    the queue to [localStorage]. *)
Definition saveSyncQueue (st : state) : state :=
  let cutoffTime := now st - 24 * 60 * 60 * 1000 in
  let q :=
    filter (λ r, keep_ref cutoffTime (heap st) r = true) (syncQueue st) in
  let ls := localStorage st in
  with_queue q
    (Storage (omap (λ r, heap st !! r) q) (ls_pendingSOSAlerts ls)
       (ls_offlineVoiceQueries ls))
    st.

(** [removeFromLocalStorage(item)] *)
Definition removeFromLocalStorage (it : queueItem) (ls : storage) : storage :=
  if bool_decide (item_type it = "sos-alert") then
    Storage (ls_syncQueue ls)
      (List.filter
         (λ alert, negb (bool_decide (data_id alert = data_id (item_data it))))
         (ls_pendingSOSAlerts ls))
      (ls_offlineVoiceQueries ls)
  else if bool_decide (item_type it = "voice-query") then
    Storage (ls_syncQueue ls) (ls_pendingSOSAlerts ls)
      (List.filter
         (λ query,
            negb (bool_decide (data_query query = data_query (item_data it))
                  && bool_decide
                       (data_timestamp query = data_timestamp (item_data it))))
         (ls_offlineVoiceQueries ls))
  else ls.

(** [syncItem(item)] up to its first [await]: the [fetch] is issued and the
    call is suspended.  [k] is the caller that holds the promise. *)
Definition syncItem (r : ref) (k : caller) (st : state) : option state :=
  it ← heap st !! r;
  Some (with_tasks (tasks st ++ [Some (Task r k AwaitFetch)])
          (with_sent
             (sent st ++
                [Request r (item_endpoint it) (item_method it) (item_data it)])
             st)).

(** The [for (const item of pendingItems)] loop of [processSyncQueue] from
    the item it is about to visit; after the loop, [saveSyncQueue()]
    ([updateSyncStatus()] only writes to the page). *)
Definition processSyncQueue_loop (items : list ref) (st : state)
  : option state :=
  match items with
  | [] => Some (saveSyncQueue st)
  | r :: rest => syncItem r (ByDrain rest) st
  end.

(** [processSyncQueue()] up to its first [await]. *)
Definition processSyncQueue (st : state) : option state :=
  let st := with_drains (S (drains st)) st in
  if negb (isOnline st) || bool_decide (syncQueue st = []) then Some st
  else processSyncQueue_loop (pendingItems st) st.

(** The [catch] block of the loop, then the rest of the loop. *)
Definition processSyncQueue_catch (r : ref) (rest : list ref) (st : state)
  : option state :=
  it ← heap st !! r;
  let retries := item_retries it + 1 in
  let it := set_retries retries it in
  let st :=
    if bool_decide (maxRetries ≤ retries) then
      with_heap (<[r := set_status "failed" it]> (heap st)) st
    else
      with_timers (timers st ++ [(now st + retryDelay * retries, r)])
        (with_heap (<[r := it]> (heap st)) st) in
  processSyncQueue_loop rest st.

(** A suspended [syncItem] call throws: the loop of a drain catches it, a
    timer callback does not (the rejection is unhandled). *)
Definition syncItem_throws (t : nat) (tk : task) (st : state) : option state :=
  let st := with_tasks (<[t := None]> (tasks st)) st in
  match t_caller tk with
  | ByDrain rest => processSyncQueue_catch (t_item tk) rest st
  | ByTimer => Some st
  end.

(** A suspended [syncItem] call reaches [result.success]: the item is marked
    and the caller goes on. *)
Definition syncItem_succeeds (t : nat) (tk : task) (st : state)
  : option state :=
  it ← heap st !! t_item tk;
  let it := set_completedAt (now st) (set_status "completed" it) in
  let st :=
    with_localStorage (removeFromLocalStorage it (localStorage st))
      (with_heap (<[t_item tk := it]> (heap st))
         (with_tasks (<[t := None]> (tasks st)) st)) in
  match t_caller tk with
  | ByDrain rest => processSyncQueue_loop rest st
  | ByTimer => Some st
  end.

(** [addToSyncQueue(type, data, endpoint, method)]; [rnd] is the value of
    [Math.random()]. *)
Definition addToSyncQueue (type : string) (data : payload)
    (endpoint method : string) (rnd : N) (st : state) : option state :=
  let item :=
    QueueItem (now st, rnd) type data endpoint method (now st) 0 "pending"
      None in
  let r := allocated st in
  let st :=
    State (isOnline st) (syncQueue st ++ [r]) (<[r := item]> (heap st)) (S r)
      (localStorage st) (tasks st) (timers st) (now st) (sent st)
      (drains st) in
  let st := saveSyncQueue st in
  if isOnline st then processSyncQueue st else Some st.

(** [handleOnline()] and [handleOffline()]; the page updates and the
    notification are not part of the state. *)
Definition handleOnline (st : state) : option state :=
  processSyncQueue (with_isOnline true st).

Definition handleOffline (st : state) : option state :=
  Some (with_isOnline false st).

(** The two [setInterval] callbacks of [setupPeriodicSync()]. *)
Definition periodicSync (st : state) : option state :=
  if isOnline st && negb (bool_decide (syncQueue st = [])) then
    processSyncQueue st
  else Some st.

Definition periodicCleanup (st : state) : option state :=
  Some (saveSyncQueue st).

(** [forcSync()]; the notifications are not part of the state. *)
Definition forcSync (st : state) : option state :=
  if negb (isOnline st) then Some st else processSyncQueue st.

(** The callback of the [setTimeout] of the [catch] block. *)
Definition retryTimer (r : ref) (st : state) : option state :=
  if isOnline st then syncItem r ByTimer st else Some st.

(** [new OfflineManager()] on a page whose [localStorage] holds [ls]:
    [initializeOfflineStores] parses the stored queue into fresh objects. *)
Definition heap_of (items : list queueItem) : gmap ref queueItem :=
  map_seq 0 items.

Definition constructor (onLine : bool) (t : Z) (ls : storage) : state :=
  let items := ls_syncQueue ls in
  State onLine (seq 0 (length items)) (heap_of items) (length items) ls
    [] [] t [] 0.

Definition emptyStorage : storage := Storage [] [] [].

(** [getSyncStats()] *)
Record stats := Stats {
  total : nat;
  pending : nat;
  completed : nat;
  failed : nat;
  stats_isOnline : bool;
}.

Definition getSyncStats (st : state) : stats * state :=
  (Stats (length (syncQueue st))
     (length (with_status "pending" st))
     (length (with_status "completed" st))
     (length (with_status "failed" st))
     (isOnline st),
   st).

(** *** The environment *)

Inductive event :=
  | Online
  | Offline
  | Enqueue (type : string) (data : payload) (endpoint method : string)
      (rnd : N)
  | PeriodicSync
  | PeriodicCleanup
  | ForcSync
  | Elapse (dt : Z)
  | FetchSettles (t : nat) (res : fetchResult)
  | JsonSettles (t : nat) (res : jsonResult)
  | TimerFires (k : nat)
  | GetSyncStats
  | Reload (onLine : bool).

(** [Reload] is a reload of the page: the suspended calls and the timers of
    the old page are gone, [localStorage] stays.  [sent] and [drains] record
    what the page did and are kept. *)

(** One turn of the event loop.  [None]: the event cannot happen in this
    state (no such suspended call, timer not due, time running backwards). *)
Definition step (st : state) (ev : event) : option state :=
  match ev with
  | Online => handleOnline st
  | Offline => handleOffline st
  | Enqueue type data endpoint method rnd =>
      addToSyncQueue type data endpoint method rnd st
  | PeriodicSync => periodicSync st
  | PeriodicCleanup => periodicCleanup st
  | ForcSync => forcSync st
  | Elapse dt => if 0 <=? dt then Some (with_now (now st + dt) st) else None
  | FetchSettles t res =>
      match tasks st !! t with
      | Some (Some tk) =>
          match t_await tk, res with
          | AwaitFetch, FetchResponse true =>
              Some (with_tasks
                      (<[t := Some (Task (t_item tk) (t_caller tk) AwaitJson)]>
                         (tasks st))
                      st)
          | AwaitFetch, _ => syncItem_throws t tk st
          | AwaitJson, _ => None
          end
      | _ => None
      end
  | JsonSettles t res =>
      match tasks st !! t with
      | Some (Some tk) =>
          match t_await tk, res with
          | AwaitJson, JsonValue true => syncItem_succeeds t tk st
          | AwaitJson, _ => syncItem_throws t tk st
          | AwaitFetch, _ => None
          end
      | _ => None
      end
  | TimerFires k =>
      match timers st !! k with
      | Some (due, r) =>
          if due <=? now st then
            retryTimer r (with_timers (delete k (timers st)) st)
          else None
      | None => None
      end
  | GetSyncStats => Some (snd (getSyncStats st))
  | Reload onLine =>
      Some (with_sent (sent st)
              (with_drains (drains st)
                 (constructor onLine (now st) (localStorage st))))
  end.

Fixpoint run (st : state) (evs : list event) : option state :=
  match evs with
  | [] => Some st
  | ev :: evs => st' ← step st ev; run st' evs
  end.

(** The states a page can reach from a first visit (empty [localStorage]). *)
Definition reachable (st : state) : Prop :=
  ∃ onLine t evs, run (constructor onLine t emptyStorage) evs = Some st.

(** Number of [fetch] calls issued for an item. *)
Definition sends (r : ref) (st : state) : nat :=
  length (filter (λ q, rq_item q = r) (sent st)).

(** *** Statuses of the items *)

Definition valid_status (s : string) : Prop :=
  s = "pending" ∨ s = "completed" ∨ s = "failed".

Definition valid_item (it : queueItem) : Prop := valid_status (item_status it).

(** The invariant of the queue: every item object has one of the three
    statuses, every reference of the queue points to an object, and the stored
    copy of the queue has valid statuses too. *)
Record wf (st : state) : Prop := Wf {
  wf_heap : ∀ r it, heap st !! r = Some it → valid_item it;
  wf_queue : ∀ r, r ∈ syncQueue st → is_Some (heap st !! r);
  wf_stored : Forall valid_item (ls_syncQueue (localStorage st));
}.

(** What [getSyncStats] promises about its counts. *)
Definition stats_add_up (s : stats) : Prop :=
  total s = (pending s + completed s + failed s)%nat.

(** *** Drains that overlap *)

(** The events that resume a suspended call or let time pass; none of them
    starts a drain or a retry. *)
Definition settling (ev : event) : bool :=
  match ev with
  | FetchSettles _ _ | JsonSettles _ _ | Elapse _ => true
  | _ => false
  end.

(** No [syncItem] call is suspended. *)
Definition idle (st : state) : Prop := Forall (λ t, t = None) (tasks st).

(** Number of occurrences of a reference in a list. *)
Definition occurrences (r : ref) (l : list ref) : nat :=
  length (filter (λ x, x = r) l).

(** The items that running drains have still to visit. *)
Definition owed_by (r : ref) (t : option task) : nat :=
  match t with
  | Some (Task _ (ByDrain rest) _) => occurrences r rest
  | _ => 0%nat
  end.

Definition owed (r : ref) (st : state) : nat :=
  sum_list_with (owed_by r) (tasks st).

(** The queue of [st'] is the queue of [st] with some items dropped, and no
    object has been created. *)
Definition shrinks (st st' : state) : Prop :=
  syncQueue st' `sublist_of` syncQueue st ∧ allocated st' = allocated st.

(** The references of the queue are distinct and have been allocated. *)
Definition distinct_refs (st : state) : Prop :=
  NoDup (syncQueue st) ∧ ∀ r, r ∈ syncQueue st → (r < allocated st)%nat.

(** What has been sent for an item and what running drains will still send
    for it. *)
Definition balance (r : ref) (st : state) : nat := (sends r st + owed r st)%nat.

Definition hit (r' r : ref) : nat := if decide (r' = r) then 1%nat else 0%nat.

(** A call of [processSyncQueue], then the suspended calls settle in the
    order [evs]. *)
Definition drain (st : state) (evs : list event) : option state :=
  st1 ← processSyncQueue st;
  run st1 evs.

(** The statement that overlapping drains submit a pending entry once: a
    second drain is started while calls of the first are still suspended, and
    when all calls have settled each entry that was pending has been sent
    once. *)
Definition overlapping_drains_submit_once : Prop :=
  ∀ st evs1 st2 evs2 st' r,
    idle st → isOnline st = true → NoDup (syncQueue st) →
    forallb settling evs1 = true → forallb settling evs2 = true →
    drain st evs1 = Some st2 → ¬ idle st2 →
    drain st2 evs2 = Some st' → idle st' →
    r ∈ pendingItems st →
    sends r st' = S (sends r st).

(** *** Connectivity notifications *)

Definition connectivity (ev : event) : bool :=
  match ev with
  | Online | Offline => true
  | _ => false
  end.

(** Number of [online] notifications in a list of events. *)
Fixpoint online_notifications (evs : list event) : nat :=
  match evs with
  | [] => 0%nat
  | Online :: evs => S (online_notifications evs)
  | _ :: evs => online_notifications evs
  end.

(** Number of changes from offline to online that a list of connectivity
    notifications makes, from the connectivity [was]. *)
Fixpoint transitions_to_online (was : bool) (evs : list event) : nat :=
  match evs with
  | [] => 0%nat
  | Online :: evs =>
      ((if was then 0 else 1) + transitions_to_online true evs)%nat
  | Offline :: evs => transitions_to_online false evs
  | _ :: evs => transitions_to_online was evs
  end.

(** The statement that only a change to online starts a drain. *)
Definition one_drain_per_transition : Prop :=
  ∀ st evs st',
    forallb connectivity evs = true →
    run st evs = Some st' →
    drains st' = (drains st + transitions_to_online (isOnline st) evs)%nat.

(** *** Failed delivery attempts *)

(** The request that [syncItem] issues for an item. *)
Definition request_of (r : ref) (it : queueItem) : request :=
  Request r (item_endpoint it) (item_method it) (item_data it).

(** The event [ev] makes the [syncItem] call [t], suspended at [a], throw. *)
Definition throws (a : await) (t : nat) (ev : event) : Prop :=
  match a with
  | AwaitFetch =>
      ev = FetchSettles t FetchRejects ∨ ev = FetchSettles t (FetchResponse false)
  | AwaitJson =>
      ev = JsonSettles t JsonRejects ∨ ev = JsonSettles t (JsonValue false)
  end.

(** What the [catch] block makes of an item. *)
Definition count_failure (it : queueItem) : queueItem :=
  let it' := set_retries (item_retries it + 1) it in
  if bool_decide (maxRetries ≤ item_retries it + 1) then set_status "failed" it'
  else it'.

(** What one delivery attempt made by a drain makes of an item: completed,
    or one more failure counted. *)
Definition attempted (it it' : queueItem) : Prop :=
  item_status it' = "completed" ∨ it' = count_failure it.

(** What a drain over the snapshot [todo], run to its end, has made of the
    state: the items of the snapshot have been attempted and the others are
    as they were; the items of the queue that are pending afterwards are
    still in the queue. *)
Definition drained (todo : list ref) (st st' : state) : Prop :=
  (∀ r it, heap st !! r = Some it →
     ∃ it', heap st' !! r = Some it'
            ∧ if decide (r ∈ todo) then attempted it it' else it' = it)
  ∧ (∀ x, x ∈ syncQueue st → status_of (heap st') x = Some "pending" →
       x ∈ syncQueue st')
  ∧ (NoDup (syncQueue st) → NoDup (syncQueue st')).

(** The requests sent for [r] since there were [n0] of them are the failures
    counted on it, unless it is completed; it is pending, and in the queue,
    below [maxRetries] failures and failed at [maxRetries]. *)
Definition accounted (n0 : nat) (r : ref) (st : state) : Prop :=
  ∃ it,
    heap st !! r = Some it
    ∧ (item_status it = "completed"
       ∨ (Z.of_nat (sends r st) = Z.of_nat n0 + item_retries it
          ∧ ((item_retries it < maxRetries ∧ item_status it = "pending"
              ∧ r ∈ syncQueue st)
             ∨ (item_retries it = maxRetries ∧ item_status it = "failed")))).

Definition idleb (st : state) : bool :=
  forallb (λ t, match t with None => true | Some _ => false end) (tasks st).

(** Drains that do not overlap: each is started when no call is suspended,
    its calls settle in the order given, and the next one is started when all
    of them have settled. *)
Fixpoint drains_in_turn (st : state) (evss : list (list event))
  : option state :=
  match evss with
  | [] => Some st
  | evs :: evss =>
      if forallb settling evs then
        st' ← drain st evs;
        if idleb st' then drains_in_turn st' evss else None
      else None
  end.

(** The statement that the retry counter of an entry stays within
    [maxRetries]. *)
Definition retries_never_exceed_maxRetries : Prop :=
  ∀ st r it,
    reachable st → heap st !! r = Some it → item_retries it ≤ maxRetries.

(** A page that is offline and holds one alert in its queue, and the request
    [syncItem] issues for it. *)
Definition flood : payload := Payload (Some 1) None None "flood".

Definition alert_queued : list event :=
  [Enqueue "sos-alert" flood "/api/sos" "POST" 7%N].

Definition first_visit : state := constructor false 0 emptyStorage.

(** The same page loaded again while online: the stored queue holds the
    alert. *)
Definition flood_item : queueItem :=
  QueueItem (0, 7%N) "sos-alert" flood "/api/sos" "POST" 0 0 "pending" None.

Definition online_with_alert : state :=
  constructor true 0 (Storage [flood_item] [] []).

(** The first page goes online: a drain starts and the request for the alert
    is in flight. *)
Definition alert_in_flight : state :=
  default first_visit (run first_visit (alert_queued ++ [Online])).

(** Two drains fail in turn; then the manual sync is started twice before
    the first of the two requests is answered, and both requests fail. *)
Definition overlapping_failures : list event :=
  alert_queued ++
  [Online; FetchSettles 0 FetchRejects;
   ForcSync; FetchSettles 1 FetchRejects;
   ForcSync; ForcSync;
   FetchSettles 2 FetchRejects; FetchSettles 3 FetchRejects].

(** Four drains, one after the other, each answered with a rejected
    [fetch]; the alert is in the snapshot of the first three only. *)
Definition four_failing_drains : list (list event) :=
  [[FetchSettles 0 FetchRejects]; [FetchSettles 1 FetchRejects];
   [FetchSettles 2 FetchRejects]; []].

(** A drain fails and schedules a retry; a manual sync one second later
    delivers the alert; four seconds later the retry timer is due. *)
Definition completed_before_retry : list event :=
  alert_queued ++
  [Online; FetchSettles 0 FetchRejects; Elapse 1000;
   ForcSync; FetchSettles 1 (FetchResponse true); JsonSettles 1 (JsonValue true);
   Elapse 4000].

(** Three drains fail within a second; the timer of the first failure is due
    after five seconds. *)
Definition failed_before_retry : list event :=
  alert_queued ++
  [Online; FetchSettles 0 FetchRejects;
   ForcSync; FetchSettles 1 FetchRejects;
   ForcSync; FetchSettles 2 FetchRejects;
   Elapse 5000].

(** A drain fails, its retry fires and fails, the periodic drain fails:
    three requests. *)
Definition retry_between_drains : list event :=
  alert_queued ++
  [Online; FetchSettles 0 FetchRejects;
   Elapse 5000; TimerFires 0; FetchSettles 1 FetchRejects;
   Elapse 25000; PeriodicSync; FetchSettles 2 FetchRejects].

(** A drain fails and schedules a retry; five seconds later the timer fires
    and the request of the retry is in flight. *)
Definition retry_in_flight : list event :=
  alert_queued ++
  [Online; FetchSettles 0 FetchRejects; Elapse 5000; TimerFires 0].

(** Both calls of [syncItem] are answered with [{success: true}]. *)
Definition both_succeed : list event :=
  [FetchSettles 0 (FetchResponse true); JsonSettles 0 (JsonValue true);
   FetchSettles 1 (FetchResponse true); JsonSettles 1 (JsonValue true)].

Definition alert_request : request := Request 0%nat "/api/sos" "POST" flood.

(** *** The queue and the page *)

(** The items of the queue, read through their references. *)
Definition entries (st : state) : list queueItem :=
  omap (λ r, heap st !! r) (syncQueue st).

(** The requests that [syncItem] issues for a list of items. *)
Definition requests_of (h : gmap ref queueItem) (items : list ref)
  : list request :=
  omap (λ r, request_of r <$> h !! r) items.

(** The events that leave a page offline: all but the [online] notification
    and a reload. *)
Definition stays_offline (ev : event) : bool :=
  match ev with
  | Online | Reload _ => false
  | _ => true
  end.

Definition no_reload (ev : event) : bool :=
  match ev with
  | Reload _ => false
  | _ => true
  end.

(** [n] calls of [syncItem], the first in slot [t], each answered by a
    response that is [ok] and whose JSON has [success] set. *)
Fixpoint all_succeed (t n : nat) : list event :=
  match n with
  | O => []
  | S n =>
      FetchSettles t (FetchResponse true) :: JsonSettles t (JsonValue true)
      :: all_succeed (S t) n
  end.

(** An item is settled when it is not pending. *)
Definition settled (it : queueItem) : Prop := item_status it ≠ "pending".

(** Between two states: no object of the first has been replaced by a new
    entry, a settled object is still settled, and no retry counter has gone
    down. *)
Definition ages (st st' : state) : Prop :=
  (allocated st ≤ allocated st')%nat
  ∧ ∀ r it, (r < allocated st)%nat → heap st !! r = Some it →
      ∃ it', heap st' !! r = Some it'
             ∧ (settled it → settled it')
             ∧ item_retries it ≤ item_retries it'.

(** A second alert, and a page that is online with both alerts stored. *)
Definition drought : payload := Payload (Some 2) None None "drought".

Definition drought_item : queueItem :=
  QueueItem (1, 8%N) "sos-alert" drought "/api/sos" "POST" 1 0 "pending" None.

Definition online_with_two_alerts : state :=
  constructor true 10 (Storage [flood_item; drought_item] [flood; drought] []).

(** The drain of that page is waiting for the first alert. *)
Definition two_alerts_in_flight : state :=
  default online_with_two_alerts (processSyncQueue online_with_two_alerts).

(** An offline page on which a retry timer is pending and due. *)
Definition offline_with_timer : state :=
  default first_visit
    (run first_visit
       (alert_queued ++
        [Online; FetchSettles 0 FetchRejects; Offline; Elapse 5000])).

(** The page on which the alert has been delivered while a retry timer is
    still pending, and what may follow: the timer fires and its request
    fails, the user asks for a sync. *)
Definition alert_completed : state :=
  default first_visit (run first_visit completed_before_retry).

Definition late_retry : list event :=
  [TimerFires 0; FetchSettles 2 FetchRejects; ForcSync].

(** What happens next on that page: the timer fires, the user asks for a
    sync, the periodic callbacks run, another alert is queued. *)
Definition offline_activity : list event :=
  [TimerFires 0; ForcSync; PeriodicSync; PeriodicCleanup;
   Enqueue "sos-alert" drought "/api/sos" "POST" 8%N; Elapse 30000;
   PeriodicSync; Offline].

End Offline.

(** ** OfflineWeatherManager *)

Module Weather.

(** The object stored under [cachedWeatherData]: its [cachedAt] field
    ([None]: the object has none, as the [[]] that [initializeOfflineStores]
    writes) and its other fields. *)
Record weatherData := WeatherData {
  cachedAt : option Z;
  fields : string;
}.

(** The [cachedWeatherData] key of [localStorage]; [None]: [getItem] returns
    [null]. *)
Definition cell := option weatherData.

Definition maxAge : Z := 6 * 60 * 60 * 1000.

(** [cacheWeatherData(data)] at [Date.now() = now]. *)
Definition cacheWeatherData (now : Z) (data : weatherData) (c : cell) : cell :=
  Some (WeatherData (Some now) (fields data)).

(** [getCachedWeatherData()] at [Date.now() = now]: the value returned and
    the key afterwards.  Without a [cachedAt] the age is [NaN], and
    [NaN > maxAge] is false. *)
Definition getCachedWeatherData (now : Z) (c : cell)
  : option weatherData * cell :=
  match c with
  | None => (None, c)
  | Some data =>
      match cachedAt data with
      | Some t =>
          let age := now - t in
          if maxAge <? age then (None, None) else (Some data, c)
      | None => (Some data, c)
      end
  end.

(** [isCacheValid()] *)
Definition isCacheValid (now : Z) (c : cell) : bool * cell :=
  let (cached, c) := getCachedWeatherData now c in
  (bool_decide (cached ≠ None), c).

(** [getCacheAge()]; [Some None] is [NaN]. *)
Definition getCacheAge (now : Z) (c : cell) : option (option Z) :=
  match c with
  | None => None
  | Some data => Some ((λ t, now - t) <$> cachedAt data)
  end.

(** [JSON.parse('[]')]: an empty array, which has no [cachedAt]. *)
Definition placeholder : weatherData := WeatherData None "[]".

(** What [initializeOfflineStores] of [OfflineManager] does to this key,
    which is one of its [stores]: when [getItem] returns [null], ['[]'] is
    written.  It runs in the constructor of [OfflineManager], which the
    script makes before it makes the weather manager. *)
Definition initializeOfflineStores (c : cell) : cell :=
  match c with
  | None => Some placeholder
  | Some data => Some data
  end.

End Weather.

(** ** The service worker *)

Module SW.

#[local] Set Warnings "-register-all".

(** A value given to [JSON.stringify], and the body of a response: a text or
    the JSON of a value. *)
Inductive json :=
  | JBool (b : bool)
  | JString (s : string)
  | JArray (l : list json)
  | JObject (members : list (string * json)).

Inductive body :=
  | Text (s : string)
  | Json (j : json).

(** A request: [url] is the absolute URL, [pathname] is
    [new URL(request.url).pathname]; the names of [headers] are in lower
    case; [req_body] is the text of the body, [None] for a request that has
    no body. *)
Record request := Request {
  method : string;
  url : string;
  pathname : string;
  headers : list (string * string);
  req_body : option string;
}.

(** [await request.text()] after [fetch(request)]: the fetch has taken the
    body of the request, and reading a body that has been used throws a
    [TypeError] ([None]); a request without a body reads as the empty
    string. *)
Definition text_after_fetch (rq : request) : option string :=
  match req_body rq with
  | None => Some EmptyString
  | Some _ => None
  end.

Record response := Response {
  resp_body : body;
  status : Z;
  resp_headers : list (string * string);
}.

(** [response.ok] *)
Definition ok (r : response) : bool := (200 <=? status r) && (status r <=? 299).

(** [headers.get(name)] *)
Fixpoint get (name : string) (hs : list (string * string)) : option string :=
  match hs with
  | [] => None
  | (n, v) :: hs => if bool_decide (n = name) then Some v else get name hs
  end.

(** [s.startsWith(p)], [s.endsWith(p)] and [s.includes(p)] *)
Definition startsWith (s p : string) : bool := String.prefix p s.

Definition endsWith (s p : string) : bool :=
  (String.length p <=? String.length s)%nat
  && bool_decide
       (String.substring (String.length s - String.length p)
          (String.length p) s = p).

Fixpoint includes (s p : string) : bool :=
  String.prefix p s
  || match s with
     | EmptyString => false
     | String _ s' => includes s' p
     end.

(** A record of the [failedRequests] object store. *)
Record failedRequest := FailedRequest {
  fr_url : string;
  fr_method : string;
  fr_headers : list (string * string);
  fr_body : string;
  fr_timestamp : Z;
  fr_id : Z * N;
}.

(** What the worker owns: its two caches, keyed by the absolute URL of the
    request, and the object store of its database.  [origin] is
    [self.location.origin], against which a relative URL is resolved, and
    [fetched] is the log of the [fetch] calls of the worker. *)
Record world := World {
  origin : string;
  STATIC_CACHE : gmap string response;
  DYNAMIC_CACHE : gmap string response;
  failedRequests : list failedRequest;
  fetched : list request;
}.

(** What [event.respondWith] is given: a promise that resolves to a
    response, or to [undefined], or that rejects because the handler threw
    (in both cases the request of the page fails with a network error);
    [NotIntercepted]: the listener returns without calling it and the browser
    handles the request itself. *)
Inductive outcome :=
  | Responded (r : response)
  | RespondedUndefined
  | RespondedRejection
  | NotIntercepted.

(** [isStaticFile(request)], [isAPIRequest(request)], [isPageRequest(request)] *)
Definition isStaticFile (rq : request) : bool :=
  startsWith (pathname rq) "/css/"
  || startsWith (pathname rq) "/js/"
  || startsWith (pathname rq) "/icons/"
  || endsWith (pathname rq) ".png"
  || endsWith (pathname rq) ".jpg"
  || endsWith (pathname rq) ".jpeg"
  || endsWith (pathname rq) ".svg"
  || endsWith (pathname rq) ".ico".

Definition isAPIRequest (rq : request) : bool :=
  startsWith (pathname rq) "/api/".

Definition isPageRequest (rq : request) : bool :=
  match get "accept" (headers rq) with
  | Some a => includes a "text/html"
  | None => false
  end.

(** [caches.match(request)], with the absolute URL of the request as [key]:
    the caches in the order of their creation. *)
Definition caches_match (w : world) (key : string) : option response :=
  match STATIC_CACHE w !! key with
  | Some r => Some r
  | None => DYNAMIC_CACHE w !! key
  end.

Definition put_static (key : string) (r : response) (w : world) : world :=
  World (origin w) (<[key := r]> (STATIC_CACHE w)) (DYNAMIC_CACHE w)
    (failedRequests w) (fetched w).

Definition put_dynamic (key : string) (r : response) (w : world) : world :=
  World (origin w) (STATIC_CACHE w) (<[key := r]> (DYNAMIC_CACHE w))
    (failedRequests w) (fetched w).

(** The absolute URL of ['/'] in the worker. *)
Definition home (w : world) : string := origin w +:+ "/".

(** The synthesized bodies of [handleOfflineAPIResponse] and
    [handlePostRequest]. *)
Definition offline_sync : json :=
  JObject
    [("success", JBool true);
     ("data",
      JObject [("sos", JArray []); ("queries", JArray []);
               ("weather", JArray [])]);
     ("offline", JBool true)].

Definition offline_acknowledgement : string :=
  "I'm currently offline. Your question has been saved and I'll respond when connectivity is restored.".

Definition offline_voice_query : json :=
  JObject
    [("success", JBool true);
     ("response", JString offline_acknowledgement);
     ("offline", JBool true)].

Definition offline_unavailable : json :=
  JObject
    [("success", JBool false);
     ("error", JString "Service unavailable offline");
     ("offline", JBool true)].

Definition queued : json :=
  JObject
    [("success", JBool false);
     ("message", JString "Request queued for sync when online");
     ("queued", JBool true)].

Definition json_headers : list (string * string) :=
  [("content-type", "application/json")].

(** [handleOfflineAPIResponse(request)]; a response built without a status
    has status 200. *)
Definition handleOfflineAPIResponse (rq : request) : response :=
  if bool_decide (pathname rq = "/api/sync") then
    Response (Json offline_sync) 200 json_headers
  else if bool_decide (pathname rq = "/api/voice-query") then
    Response (Json offline_voice_query) 200 json_headers
  else Response (Json offline_unavailable) 503 json_headers.

Section handlers.

(** The environment of one fetch event: how [fetch(request)] settles ([None]:
    it rejects), whether the database can be opened and written, and the
    values of [Date.now()] and [Math.random()]. *)
Variable net : request → option response.
Variable dbOk : bool.
Variable now : Z.
Variable rnd : N.

Definition fetch (rq : request) (w : world) : option response * world :=
  (net rq,
   World (origin w) (STATIC_CACHE w) (DYNAMIC_CACHE w) (failedRequests w)
     (fetched w ++ [rq])).

(** [handleStaticFile(request)]: cache first. *)
Definition handleStaticFile (rq : request) (w : world) : response * world :=
  match caches_match w (url rq) with
  | Some cachedResponse => (cachedResponse, w)
  | None =>
      match fetch rq w with
      | (Some networkResponse, w) =>
          (networkResponse,
           if ok networkResponse then put_static (url rq) networkResponse w
           else w)
      | (None, w) => (Response (Text "File not available offline") 503 [], w)
      end
  end.

(** [handleAPIRequest(request)]: network first, then cache, then the
    synthesized response.  The headers of a response that comes from a cache
    are immutable, and so are those of its clone: on a cache hit
    [response.headers.set('X-Served-From', 'cache')] throws a [TypeError],
    which nothing catches, and the handler rejects. *)
Definition handleAPIRequest (rq : request) (w : world) : outcome * world :=
  match fetch rq w with
  | (Some networkResponse, w) =>
      (Responded networkResponse,
       if ok networkResponse then put_dynamic (url rq) networkResponse w
       else w)
  | (None, w) =>
      match caches_match w (url rq) with
      | Some cachedResponse => (RespondedRejection, w)
      | None => (Responded (handleOfflineAPIResponse rq), w)
      end
  end.

(** [handlePageRequest(request)]: [caches.match('/')] looks up the URL of
    ['/'] at the origin of the worker; the last line,
    [caches.match('/') || ...], returns the promise of [caches.match('/')],
    which may resolve to [undefined]. *)
Definition handlePageRequest (rq : request) (w : world) : outcome * world :=
  match fetch rq w with
  | (Some networkResponse, w) =>
      (Responded networkResponse,
       if ok networkResponse then put_dynamic (url rq) networkResponse w
       else w)
  | (None, w) =>
      match caches_match w (url rq) with
      | Some cachedResponse => (Responded cachedResponse, w)
      | None =>
          match caches_match w (home w) with
          | Some page => (Responded page, w)
          | None => (RespondedUndefined, w)
          end
      end
  end.

(** [handleOtherRequest(request)] *)
Definition handleOtherRequest (rq : request) (w : world) : response * world :=
  match fetch rq w with
  | (Some r, w) => (r, w)
  | (None, w) => (Response (Text "Request failed") 503 [], w)
  end.

(** [storeFailedRequest(requestData)], with the request and the text of its
    body that make up [requestData]: an error of the database is caught and
    logged. *)
Definition storeFailedRequest (rq : request) (body : string) (w : world)
  : world :=
  if dbOk then
    World (origin w) (STATIC_CACHE w) (DYNAMIC_CACHE w)
      (failedRequests w ++
         [FailedRequest (url rq) (method rq) (headers rq) body now (now, rnd)])
      (fetched w)
  else w.

(** [handlePostRequest(request)]: the [catch] block reads [request.text()]
    of the request that [fetch] was given; when that throws, nothing is
    stored and the handler rejects. *)
Definition handlePostRequest (rq : request) (w : world) : outcome * world :=
  match fetch rq w with
  | (Some r, w) => (Responded r, w)
  | (None, w) =>
      match text_after_fetch rq with
      | Some body =>
          (Responded (Response (Json queued) 202 json_headers),
           storeFailedRequest rq body w)
      | None => (RespondedRejection, w)
      end
  end.

(** The [fetch] listener. *)
Definition onFetch (rq : request) (w : world) : outcome * world :=
  if bool_decide (method rq = "GET") then
    if isStaticFile rq then
      let (r, w) := handleStaticFile rq w in (Responded r, w)
    else if isAPIRequest rq then handleAPIRequest rq w
    else if isPageRequest rq then handlePageRequest rq w
    else let (r, w) := handleOtherRequest rq w in (Responded r, w)
  else if bool_decide (method rq = "POST") then handlePostRequest rq w
  else (NotIntercepted, w).

End handlers.

(** A network that is down, a style sheet that the static cache holds, and a
    read of the sync endpoint. *)
Definition no_network (rq : request) : option response := None.

Definition css_request : request :=
  Request "GET" "https://agriecho.example/css/app.css" "/css/app.css" []
    None.

Definition css_response : response :=
  Response (Text "body { margin: 0 }") 200 [("content-type", "text/css")].

Definition emptyWorld : world := World "https://agriecho.example" ∅ ∅ [] [].

Definition css_cached : world := put_static (url css_request) css_response emptyWorld.

Definition sync_request : request :=
  Request "GET" "https://agriecho.example/api/sync" "/api/sync"
    [("accept", "application/json")] None.

(** A network that answers with the style sheet. *)
Definition css_network (rq : request) : option response := Some css_response.

(** The requests of two pages, and a network that answers with the home
    page. *)
Definition home_page : request :=
  Request "GET" "https://agriecho.example/" "/"
    [("accept", "text/html,application/xhtml+xml")] None.

Definition weather_page : request :=
  Request "GET" "https://agriecho.example/weather" "/weather"
    [("accept", "text/html,application/xhtml+xml")] None.

Definition home_response : response :=
  Response (Text "<!DOCTYPE html><title>AgriEcho</title>") 200
    [("content-type", "text/html")].

Definition home_network (rq : request) : option response := Some home_response.

End SW.

(** ** The page and its service worker *)

Module App.

(** The page holds the [OfflineManager]; the worker runs in a scope of its
    own and holds the caches and the database. *)
Record system := System {
  page : Offline.state;
  worker : SW.world;
}.

(** A request of the page passes through the [fetch] listener of the
    worker. *)
Definition fetchEvent (net : SW.request → option SW.response) (dbOk : bool)
    (now : Z) (rnd : N) (rq : SW.request) (sys : system)
  : SW.outcome * system :=
  let (o, w) := SW.onFetch net dbOk now rnd rq (worker sys) in
  (o, System (page sys) w).




(** The alert that the page posts, and a POST request without a body. *)
Definition sos_post : SW.request :=
  SW.Request "POST" "https://agriecho.example/api/sos" "/api/sos"
    [("content-type", "application/json")] (Some "flood").


(** The page of the first visit and a worker with empty caches. *)
Definition first_system : system := System Offline.first_visit SW.emptyWorld.

End App.

(** ** The keys of localStorage *)

Module Stores.

(** [localStorage] as it is: strings under string keys. *)
Definition stores : list string :=
  ["offlineArticles"; "pendingSOSAlerts"; "offlineVoiceQueries";
   "cachedWeatherData"; "offlineUserPreferences"; "syncQueue"].

(** [!localStorage.getItem(store)]: the key is absent or holds the empty
    string. *)
Definition missing (v : option string) : bool :=
  match v with
  | None => true
  | Some s => bool_decide (s = EmptyString)
  end.

(** The body of the [forEach]: [JSON.stringify([])] is written under a
    missing key. *)
Definition initializeStore (ls : gmap string string) (store : string)
  : gmap string string :=
  if missing (ls !! store) then <[store := "[]"]> ls else ls.

(** The [forEach] of [initializeOfflineStores] over a list of keys, and over
    the keys of the class. *)
Definition initializeStores (keys : list string) (ls : gmap string string)
  : gmap string string :=
  foldl initializeStore ls keys.

Definition initializeOfflineStores (ls : gmap string string)
  : gmap string string :=
  initializeStores stores ls.

(** A [localStorage] that holds a cached weather record and an empty
    preferences key. *)
Definition some_storage : gmap string string :=
  <["cachedWeatherData" := "{}"]> (<["offlineUserPreferences" := EmptyString]> ∅).

End Stores.

(** ** OfflineArticleManager *)

Module Articles.

(** An article: its [id], its [savedAt] field ([None]: it has none) and its
    other fields. *)
Record article := Article {
  art_id : Z;
  savedAt : option Z;
  art_rest : string;
}.

#[export] Instance article_eq_dec : EqDecision article.
Proof. solve_decision. Defined.

(** The [offlineArticles] key: the list it holds, or [None] when the key is
    absent. *)
Definition store := option (list article).

(** [getArticles()]: [JSON.parse(localStorage.getItem(key) || '[]')] *)
Definition getArticles (s : store) : list article := default [] s.

(** [articles.findIndex(a => a.id === id)], [None] for -1. *)
Fixpoint findIndex (id : Z) (articles : list article) : option nat :=
  match articles with
  | [] => None
  | a :: articles =>
      if bool_decide (art_id a = id) then Some O
      else S <$> findIndex id articles
  end.

(** [articles.find(a => a.id === id)], [None] for [undefined]. *)
Fixpoint find (id : Z) (articles : list article) : option article :=
  match articles with
  | [] => None
  | a :: articles =>
      if bool_decide (art_id a = id) then Some a else find id articles
  end.

(** [{ ...article, savedAt: Date.now() }] *)
Definition stamped (now : Z) (a : article) : article :=
  Article (art_id a) (Some now) (art_rest a).

(** [saveArticle(article)] at [Date.now() = now]: the key afterwards (the
    method returns [true]). *)
Definition saveArticle (now : Z) (a : article) (s : store) : store :=
  let articles := getArticles s in
  Some (match findIndex (art_id a) articles with
        | Some existingIndex => <[existingIndex := stamped now a]> articles
        | None => articles ++ [stamped now a]
        end).

(** [getArticle(id)] *)
Definition getArticle (id : Z) (s : store) : option article :=
  find id (getArticles s).

(** [removeArticle(id)]: the key afterwards. *)
Definition removeArticle (id : Z) (s : store) : store :=
  Some (filter (λ a, art_id a ≠ id) (getArticles s)).

(** [isArticleSaved(id)] *)
Definition isArticleSaved (id : Z) (s : store) : bool :=
  existsb (λ a, bool_decide (art_id a = id)) (getArticles s).

(** [clearAll()]: [localStorage.removeItem(key)] *)
Definition clearAll (s : store) : store := None.

(** The ids of the stored articles. *)
Definition ids (s : store) : list Z := art_id <$> getArticles s.

Definition soil : article := Article 1 None "Soil Health Management".
Definition crops : article := Article 2 None "Crop Rotation Benefits".

End Articles.

(** ** The application script *)

Module AppScript.

(** *** The error log *)

(** The two [error] listeners: [errors.push(errorInfo)], then
    [errors.splice(0, errors.length - 10)] when more than 10 are held. *)
Definition recordError {A} (errors : list A) (errorInfo : A) : list A :=
  let errors := errors ++ [errorInfo] in
  if (10 <? length errors)%nat then drop (length errors - 10) errors
  else errors.

(** *** formatRelativeTime *)

Definition minute : Z := 60 * 1000.
Definition hour : Z := 60 * minute.
Definition day : Z := 24 * hour.

(** The count and the unit that [formatRelativeTime] prints; [None] for
    'Just now'. *)
Definition relativeTime (now timestamp : Z) : option (Z * string) :=
  let diff := now - timestamp in
  if diff <? minute then None
  else if diff <? hour then Some (diff / minute, "minute")
  else if diff <? day then Some (diff / hour, "hour")
  else Some (diff / day, "day").

(** [n > 1 ? 's' : ''] *)
Definition plural (n : Z) : string := if 1 <? n then "s" else EmptyString.

(** [formatRelativeTime(timestamp)] at [Date.now() = now] *)
Definition formatRelativeTime (now timestamp : Z) : string :=
  match relativeTime now timestamp with
  | None => "Just now"
  | Some (n, unit) => pretty n +:+ " " +:+ unit +:+ plural n +:+ " ago"
  end.

(** *** debounce and throttle *)

Section wrappers.

(** The arguments of the wrapped function. *)
Variable args : Type.

(** A debounced function: the timer that is pending, with the time it is due
    and the arguments its callback holds, and the calls of [func] so far. *)
Record debounced := Debounced {
  d_timeout : option (Z * args);
  d_calls : list args;
}.

(** [executedFunction(...args)] at time [now]: the pending timer is cleared
    and a new one is set. *)
Definition debounce_call (wait now : Z) (a : args) (d : debounced)
  : debounced :=
  Debounced (Some (now + wait, a)) (d_calls d).

(** The timer fires at time [now]: [later] calls [func(...args)]. *)
Definition debounce_fire (now : Z) (d : debounced) : option debounced :=
  match d_timeout d with
  | Some (due, a) =>
      if due <=? now then Some (Debounced None (d_calls d ++ [a])) else None
  | None => None
  end.

(** A throttled function: the flag, the time its timer is due and the calls
    of [func] so far. *)
Record throttled := Throttled {
  inThrottle : bool;
  t_due : option Z;
  t_calls : list args;
}.

(** A call at time [now]. *)
Definition throttle_call (limit now : Z) (a : args) (t : throttled)
  : throttled :=
  if inThrottle t then t
  else Throttled true (Some (now + limit)) (t_calls t ++ [a]).

(** The timer fires at time [now]: [inThrottle = false]. *)
Definition throttle_fire (now : Z) (t : throttled) : option throttled :=
  match t_due t with
  | Some due =>
      if due <=? now then Some (Throttled false None (t_calls t)) else None
  | None => None
  end.

End wrappers.

Arguments Debounced {args}.
Arguments d_timeout {args}.
Arguments d_calls {args}.
Arguments debounce_call {args}.
Arguments debounce_fire {args}.
Arguments Throttled {args}.
Arguments inThrottle {args}.
Arguments t_due {args}.
Arguments t_calls {args}.
Arguments throttle_call {args}.
Arguments throttle_fire {args}.

(** *** syncSOSAlerts *)

(** How the [fetch] of one alert ends: it rejects, or it is answered with
    [response.ok] or not. *)
Inductive delivery :=
  | Rejected
  | Answered (ok : bool).

Definition delivered (d : delivery) : bool :=
  match d with
  | Answered true => true
  | _ => false
  end.

(** The loop of [syncSOSAlerts(alerts)] over the alerts, each with the way
    its request ends: the ids pushed to [successfulSyncs]. *)
Definition successfulSyncs (run : list (Offline.payload * delivery))
  : list (option Z) :=
  foldl
    (λ acc '(alert, d), if delivered d then acc ++ [Offline.data_id alert] else acc)
    [] run.

(** [syncSOSAlerts(alerts)]: the requests sent and the list written to
    [pendingSOSAlerts]. *)
Definition syncSOSAlerts (run : list (Offline.payload * delivery))
  : list Offline.payload * list Offline.payload :=
  let alerts := fst <$> run in
  (alerts,
   filter (λ alert, Offline.data_id alert ∉ successfulSyncs run) alerts).

End AppScript.

(** ** Properties of the sync queue *)

Module OfflineFacts.
Import Offline.

(** *** The statuses of the items: the invariant *)

Lemma wf_same st st' :
  heap st' = heap st → syncQueue st' = syncQueue st →
  ls_syncQueue (localStorage st') = ls_syncQueue (localStorage st) →
  wf st → wf st'.
Proof.
  intros Hh Hq Hl [H1 H2 H3]. split; rewrite ?Hh, ?Hq, ?Hl; assumption.
Qed.

Lemma saveSyncQueue_wf st : wf st → wf (saveSyncQueue st).
Proof.
  intros [H1 H2 H3]. split; simpl.
  - exact H1.
  - intros r Hr. apply list_elem_of_filter in Hr as [_ Hr]. auto.
  - apply Forall_forall. intros it Hit.
    apply list_elem_of_omap in Hit as (r & _ & Hr). eauto.
Qed.

Lemma syncItem_wf r k st st' : syncItem r k st = Some st' → wf st → wf st'.
Proof.
  unfold syncItem. intros H Hwf.
  destruct (heap st !! r); simplify_eq/=.
  by apply (wf_same st).
Qed.

Lemma processSyncQueue_loop_wf items st st' :
  processSyncQueue_loop items st = Some st' → wf st → wf st'.
Proof.
  destruct items as [|r rest]; simpl; intros H Hwf.
  - simplify_eq. by apply saveSyncQueue_wf.
  - by eapply syncItem_wf.
Qed.

Lemma processSyncQueue_wf st st' :
  processSyncQueue st = Some st' → wf st → wf st'.
Proof.
  unfold processSyncQueue. intros H Hwf.
  assert (wf (with_drains (S (drains st)) st)) as Hwf' by by apply (wf_same st).
  destruct (_ || _); simplify_eq; [done|].
  by eapply processSyncQueue_loop_wf.
Qed.

(** Overwriting an object of the heap by one with a valid status. *)
Lemma update_wf r it st :
  is_Some (heap st !! r) → valid_item it → wf st →
  wf (with_heap (<[r := it]> (heap st)) st).
Proof.
  intros Hr Hit [H1 H2 H3]. split; simpl; [| |done].
  - intros r' it'. rewrite lookup_insert. case_decide; naive_solver.
  - intros r' Hr'. rewrite lookup_insert. case_decide; eauto.
Qed.

Lemma processSyncQueue_catch_wf r rest st st' :
  processSyncQueue_catch r rest st = Some st' → wf st → wf st'.
Proof.
  unfold processSyncQueue_catch. intros H Hwf.
  destruct (heap st !! r) as [it|] eqn:Hr; simplify_eq/=.
  eapply processSyncQueue_loop_wf; [exact H|].
  case_bool_decide.
  - apply update_wf; [by rewrite Hr| |done].
    right; right; reflexivity.
  - eapply (wf_same (with_heap _ st)); [reflexivity..|].
    apply update_wf; [by rewrite Hr| |done].
    destruct Hwf as [H1 _ _]. exact (H1 _ _ Hr).
Qed.

Lemma clear_task_wf t st : wf st → wf (with_tasks (<[t := None]> (tasks st)) st).
Proof. by apply wf_same. Qed.

Lemma syncItem_throws_wf t tk st st' :
  syncItem_throws t tk st = Some st' → wf st → wf st'.
Proof.
  unfold syncItem_throws. intros H Hwf. apply (clear_task_wf t) in Hwf.
  destruct (t_caller tk); simplify_eq; [|done].
  by eapply processSyncQueue_catch_wf.
Qed.

Lemma removeFromLocalStorage_syncQueue it ls :
  ls_syncQueue (removeFromLocalStorage it ls) = ls_syncQueue ls.
Proof. unfold removeFromLocalStorage. by repeat case_bool_decide. Qed.

Lemma syncItem_succeeds_wf t tk st st' :
  syncItem_succeeds t tk st = Some st' → wf st → wf st'.
Proof.
  unfold syncItem_succeeds. intros H Hwf.
  destruct (heap st !! t_item tk) as [it|] eqn:Hr; simplify_eq/=.
  match type of H with
  | context [with_localStorage ?ls ?s] => assert (wf (with_localStorage ls s)) as Hwf'
  end.
  { eapply (wf_same (with_heap _ st));
      [reflexivity|reflexivity|apply removeFromLocalStorage_syncQueue|].
    apply update_wf; [by rewrite Hr| |done].
    right; left; reflexivity. }
  destruct (t_caller tk); simplify_eq; [|done].
  by eapply processSyncQueue_loop_wf.
Qed.

Lemma addToSyncQueue_wf type data endpoint method rnd st st' :
  addToSyncQueue type data endpoint method rnd st = Some st' → wf st → wf st'.
Proof.
  unfold addToSyncQueue. intros H [H1 H2 H3].
  match type of H with
  | context [saveSyncQueue ?s] => assert (wf (saveSyncQueue s)) as Hwf'
  end.
  { apply saveSyncQueue_wf. split; simpl; [| |done].
    - intros r it. rewrite lookup_insert. case_decide; [|by eauto].
      intros [= <-]. left; reflexivity.
    - intros r Hr. rewrite lookup_insert. case_decide; [by eauto|].
      apply elem_of_app in Hr as [Hr|Hr]; [by auto|].
      apply list_elem_of_singleton in Hr. congruence. }
  destruct (isOnline _); simplify_eq; [|done].
  by eapply processSyncQueue_wf.
Qed.

Lemma constructor_wf onLine t ls :
  Forall valid_item (ls_syncQueue ls) → wf (constructor onLine t ls).
Proof.
  intros Hls. split; simpl; [| |done].
  - intros r it. unfold heap_of. rewrite lookup_map_seq_0. intros Hr.
    eapply Forall_forall; [exact Hls|]. by eapply list_elem_of_lookup_2.
  - intros r Hr. unfold heap_of. rewrite lookup_map_seq_0.
    apply elem_of_seq in Hr. apply lookup_lt_is_Some. lia.
Qed.

Lemma step_wf st ev st' : step st ev = Some st' → wf st → wf st'.
Proof.
  destruct ev; simpl; intros H Hwf;
    unfold handleOnline, handleOffline, periodicCleanup in H.
  - eapply processSyncQueue_wf; [exact H|]. by apply (wf_same st).
  - simplify_eq. by apply (wf_same st).
  - by eapply addToSyncQueue_wf.
  - unfold periodicSync in H. destruct (_ && _); simplify_eq; [|done].
    by eapply processSyncQueue_wf.
  - simplify_eq. by apply saveSyncQueue_wf.
  - unfold forcSync in H. destruct (negb _); simplify_eq; [done|].
    by eapply processSyncQueue_wf.
  - destruct (0 <=? dt); simplify_eq. by apply (wf_same st).
  - destruct (tasks st !! t) as [[tk|]|]; try done.
    destruct (t_await tk); [|done].
    destruct res as [|[]]; simplify_eq;
      [by eapply syncItem_throws_wf| by apply (wf_same st)
      | by eapply syncItem_throws_wf].
  - destruct (tasks st !! t) as [[tk|]|]; try done.
    destruct (t_await tk); [done|].
    destruct res as [|[]]; simplify_eq;
      [by eapply syncItem_throws_wf| by eapply syncItem_succeeds_wf
      | by eapply syncItem_throws_wf].
  - destruct (timers st !! k) as [[due r]|]; [|done].
    destruct (due <=? now st); [|done].
    unfold retryTimer in H. simpl in H.
    destruct (isOnline st); simplify_eq; [|by apply (wf_same st)].
    eapply syncItem_wf; [exact H|]. by apply (wf_same st).
  - by simplify_eq.
  - simplify_eq.
    eapply (wf_same (constructor onLine (now st) (localStorage st)));
      [reflexivity..|].
    apply constructor_wf. by destruct Hwf.
Qed.

Lemma run_wf evs st st' : run st evs = Some st' → wf st → wf st'.
Proof.
  revert st. induction evs as [|ev evs IH]; simpl; intros st H Hwf.
  - by simplify_eq.
  - destruct (step st ev) as [st1|] eqn:Hstep; simplify_eq/=.
    eapply IH; [exact H|]. by eapply step_wf.
Qed.

Lemma reachable_wf st : reachable st → wf st.
Proof.
  intros (onLine & t & evs & Hrun).
  eapply run_wf; [exact Hrun|]. apply constructor_wf. constructor.
Qed.


(** The three filters of [getSyncStats] split a list of valid items. *)
Lemma statuses_split (h : gmap ref queueItem) (q : list ref) :
  (∀ r, r ∈ q → ∃ it, h !! r = Some it ∧ valid_item it) →
  length q =
    (length (filter (λ r, status_of h r = Some "pending") q)
     + length (filter (λ r, status_of h r = Some "completed") q)
     + length (filter (λ r, status_of h r = Some "failed") q))%nat.
Proof.
  induction q as [|r q IH]; intros Hq; [done|].
  rewrite !filter_cons.
  destruct (Hq r) as (it & Hr & Hit); [left|].
  specialize (IH (λ r' Hr', Hq r' (list_elem_of_further _ _ _ Hr'))).
  assert (status_of h r = Some (item_status it)) as Hs
    by (unfold status_of; by rewrite Hr).
  repeat case_decide; simpl; try lia;
    destruct Hit as [Hv|[Hv|Hv]]; congruence.
Qed.

(** C10: in every reachable state each entry of the queue has status
    pending, completed or failed, so the counts of [getSyncStats] satisfy
    total = pending + completed + failed; and [getSyncStats] leaves the whole
    state, the queue and [localStorage] included, as it was. *)
Theorem getSyncStats_adds_up st :
  reachable st →
  (∀ r, r ∈ syncQueue st →
     ∃ it, heap st !! r = Some it ∧ valid_status (item_status it))
  ∧ stats_add_up (fst (getSyncStats st))
  ∧ snd (getSyncStats st) = st
  ∧ step st GetSyncStats = Some st.
Proof.
  intros Hwf%reachable_wf.
  assert (∀ r, r ∈ syncQueue st → ∃ it, heap st !! r = Some it ∧ valid_item it)
    as Hq.
  { intros r Hr. destruct (wf_queue _ Hwf r Hr) as [it Hit].
    exists it. split; [done|]. by eapply wf_heap. }
  split; [exact Hq|]. split; [|split; reflexivity].
  unfold stats_add_up, getSyncStats, with_status. simpl.
  by apply statuses_split.
Qed.

Lemma getSyncStats_adds_up_witness :
  stats_add_up (fst (getSyncStats alert_in_flight))
  ∧ snd (getSyncStats alert_in_flight) = alert_in_flight.
Proof.
  destruct (getSyncStats_adds_up alert_in_flight) as (_ & H1 & H2 & _).
  - exists false, 0, (alert_queued ++ [Online]). vm_compute. reflexivity.
  - split; [exact H1 | exact H2].
Defined.

(** *** Connectivity notifications *)

Lemma syncItem_drains r k st st' :
  syncItem r k st = Some st' → drains st' = drains st.
Proof.
  unfold syncItem. intros H. destruct (heap st !! r); by simplify_eq/=.
Qed.

Lemma processSyncQueue_loop_total items st :
  (∀ r, r ∈ items → is_Some (heap st !! r)) →
  ∃ st', processSyncQueue_loop items st = Some st'
         ∧ drains st' = drains st ∧ timers st' = timers st
         ∧ heap st' = heap st.
Proof.
  destruct items as [|r rest]; simpl; intros Hitems; [by eexists|].
  unfold syncItem. destruct (Hitems r) as [it ->]; [left|].
  by eexists.
Qed.

Lemma processSyncQueue_total st :
  wf st →
  ∃ st', processSyncQueue st = Some st' ∧ drains st' = S (drains st).
Proof.
  intros Hwf. unfold processSyncQueue.
  destruct (_ || _); [by eexists|].
  destruct (processSyncQueue_loop_total (pendingItems (with_drains (S (drains st)) st))
              (with_drains (S (drains st)) st)) as (st' & H & Hd & _).
  { intros r Hr. apply list_elem_of_filter in Hr as [_ Hr].
    by apply (wf_queue _ Hwf). }
  by exists st'.
Qed.

(** The statement of C4 fails: a page that is offline receives two [online]
    notifications in a row; that is one change to online, and
    [processSyncQueue] is called twice. *)
Lemma second_online_notification_drains_again : ¬ one_drain_per_transition.
Proof.
  intros H.
  specialize (H first_visit [Online; Online] _ eq_refl eq_refl).
  vm_compute in H. discriminate H.
Qed.

(** C4, amended: every [online] notification calls [processSyncQueue] once,
    whether or not the page was online before, and an [offline] notification
    never does; after a list of connectivity notifications the number of
    drains has grown by the number of [online] notifications in it. *)
Theorem every_online_notification_drains st evs :
  reachable st →
  forallb connectivity evs = true →
  ∃ st', run st evs = Some st'
         ∧ drains st' = (drains st + online_notifications evs)%nat.
Proof.
  intros Hwf%reachable_wf. revert st Hwf.
  induction evs as [|ev evs IH]; intros st Hwf Hevs; simpl.
  - exists st. split; [done|lia].
  - simpl in Hevs. apply andb_prop in Hevs as [Hev Hevs].
    destruct ev; try discriminate Hev; simpl; unfold handleOnline, handleOffline.
    + destruct (processSyncQueue_total (with_isOnline true st)) as (st1 & H1 & Hd);
        [by apply (wf_same st)|].
      rewrite H1. simpl.
      destruct (IH st1) as (st' & Hrun & Hd'); [|done|].
      { eapply processSyncQueue_wf; [exact H1|]. by apply (wf_same st). }
      exists st'. split; [done|]. rewrite Hd', Hd. simpl. lia.
    + simpl.
      destruct (IH (with_isOnline false st)) as (st' & Hrun & Hd');
        [by apply (wf_same st)|done|].
      exists st'. split; [done|]. rewrite Hd'. simpl. lia.
Qed.

Lemma every_online_notification_drains_witness :
  ∃ st', run first_visit [Online; Online; Offline] = Some st'
         ∧ drains st' = 2%nat.
Proof.
  apply (every_online_notification_drains first_visit [Online; Online; Offline]).
  - exists false, 0, []. reflexivity.
  - reflexivity.
Defined.


(** *** Drains that overlap: what is sent *)

Lemma occurrences_cons r r' l :
  occurrences r (r' :: l) = (hit r' r + occurrences r l)%nat.
Proof.
  unfold occurrences, hit. rewrite filter_cons. by case_decide.
Qed.

Lemma owed_insert r (l : list (option task)) t old new :
  l !! t = Some old →
  (sum_list_with (owed_by r) (<[t := new]> l) + owed_by r old
   = sum_list_with (owed_by r) l + owed_by r new)%nat.
Proof.
  revert t. induction l as [|x l IH]; intros [|t] Ht; simplify_eq/=; [lia|].
  specialize (IH t Ht). lia.
Qed.

Lemma idle_owed r st : idle st → owed r st = 0%nat.
Proof.
  unfold idle, owed. induction 1 as [|t ts Ht _ IH]; [done|].
  simpl. by rewrite Ht, IH.
Qed.

(** A [syncItem] call sends one request for its item and, for a drain, owes
    the rest of the snapshot. *)
Lemma syncItem_balance r' k r st st' :
  syncItem r' k st = Some st' →
  balance r st' =
    (balance r st + hit r' r + owed_by r (Some (Task r' k AwaitFetch)))%nat.
Proof.
  unfold syncItem. intros H. destruct (heap st !! r') as [it|]; simplify_eq/=.
  unfold balance, sends, owed. simpl.
  rewrite filter_app, length_app, sum_list_with_app, filter_cons. simpl.
  unfold hit. case_decide; simpl; lia.
Qed.

Lemma saveSyncQueue_balance r st : balance r (saveSyncQueue st) = balance r st.
Proof. reflexivity. Qed.

Lemma processSyncQueue_loop_balance items r st st' :
  processSyncQueue_loop items st = Some st' →
  (balance r st' + owed_by r None = balance r st + occurrences r items)%nat.
Proof.
  destruct items as [|r' rest]; simpl; intros H.
  - simplify_eq. rewrite saveSyncQueue_balance. unfold occurrences. simpl. lia.
  - rewrite (syncItem_balance _ _ r _ _ H), occurrences_cons. simpl. lia.
Qed.

Lemma processSyncQueue_balance r st st' :
  isOnline st = true → processSyncQueue st = Some st' →
  balance r st' = (balance r st + occurrences r (pendingItems st))%nat.
Proof.
  unfold processSyncQueue. simpl. intros -> H. simpl in H.
  case_bool_decide as Hq.
  - simplify_eq. unfold pendingItems, with_status. rewrite Hq.
    unfold balance, sends, owed, occurrences. simpl. lia.
  - apply (processSyncQueue_loop_balance _ r) in H. simpl in H.
    unfold balance in *. simpl in *. unfold pendingItems, with_status in *.
    simpl in H. unfold sends, owed in *. simpl in *. lia.
Qed.

(** Clearing the slot of a settled call gives back what it owed. *)
Lemma clear_task_balance r t tk st :
  tasks st !! t = Some (Some tk) →
  (balance r (with_tasks (<[t := None]> (tasks st)) st) + owed_by r (Some tk)
   = balance r st)%nat.
Proof.
  intros Ht. unfold balance, sends, owed. simpl.
  pose proof (owed_insert r _ _ _ None Ht) as H. simpl in H. lia.
Qed.

Lemma processSyncQueue_catch_balance r0 rest r st st' :
  processSyncQueue_catch r0 rest st = Some st' →
  balance r st' = (balance r st + occurrences r rest)%nat.
Proof.
  unfold processSyncQueue_catch. intros H.
  destruct (heap st !! r0) as [it|]; simplify_eq/=.
  apply (processSyncQueue_loop_balance _ r) in H. simpl in H.
  case_bool_decide; unfold balance, sends, owed in *; simpl in *; lia.
Qed.

Lemma syncItem_throws_balance t tk r st st' :
  tasks st !! t = Some (Some tk) →
  syncItem_throws t tk st = Some st' → balance r st' = balance r st.
Proof.
  intros Ht H. unfold syncItem_throws in H.
  pose proof (clear_task_balance r t tk st Ht) as Hc.
  destruct tk as [r0 [rest|] a]; simpl in *.
  - apply (processSyncQueue_catch_balance _ _ r) in H. lia.
  - simplify_eq. lia.
Qed.

Lemma syncItem_succeeds_balance t tk r st st' :
  tasks st !! t = Some (Some tk) →
  syncItem_succeeds t tk st = Some st' → balance r st' = balance r st.
Proof.
  intros Ht H. unfold syncItem_succeeds in H.
  pose proof (clear_task_balance r t tk st Ht) as Hc.
  destruct (heap st !! t_item tk) as [it|]; simplify_eq/=.
  destruct tk as [r0 [rest|] a]; simpl in *.
  - apply (processSyncQueue_loop_balance _ r) in H. simpl in H.
    unfold balance, sends, owed in *; simpl in *; lia.
  - simplify_eq. unfold balance, sends, owed in *; simpl in *; lia.
Qed.

(** Settling a call sends for an item what the drain owed for it. *)
Lemma step_settling_balance r st ev st' :
  settling ev = true → step st ev = Some st' → balance r st' = balance r st.
Proof.
  destruct ev; try discriminate; intros _; simpl; intros H.
  - destruct (0 <=? dt); by simplify_eq.
  - destruct (tasks st !! t) as [[tk|]|] eqn:Ht; try done.
    destruct (t_await tk); [|done].
    destruct res as [|[]]; simplify_eq;
      [by eapply syncItem_throws_balance| |by eapply syncItem_throws_balance].
    unfold balance, sends, owed. simpl.
    pose proof (owed_insert r _ _ _
                  (Some (Task (t_item tk) (t_caller tk) AwaitJson)) Ht) as Hi.
    destruct tk as [r0 k a]. simpl in *. lia.
  - destruct (tasks st !! t) as [[tk|]|] eqn:Ht; try done.
    destruct (t_await tk); [done|].
    destruct res as [|[]]; simplify_eq;
      [by eapply syncItem_throws_balance|by eapply syncItem_succeeds_balance
      |by eapply syncItem_throws_balance].
Qed.

Lemma run_settling_balance r evs st st' :
  forallb settling evs = true → run st evs = Some st' →
  balance r st' = balance r st.
Proof.
  revert st. induction evs as [|ev evs IH]; simpl; intros st Hevs H.
  - by simplify_eq.
  - apply andb_prop in Hevs as [Hev Hevs].
    destruct (step st ev) as [st1|] eqn:Hstep; simplify_eq/=.
    rewrite (IH _ Hevs H). by eapply step_settling_balance.
Qed.


(** Only the connectivity handlers and a reload write [isOnline]. *)
Lemma syncItem_isOnline r k st st' :
  syncItem r k st = Some st' → isOnline st' = isOnline st.
Proof.
  unfold syncItem. intros H. destruct (heap st !! r); by simplify_eq/=.
Qed.

Lemma processSyncQueue_loop_isOnline items st st' :
  processSyncQueue_loop items st = Some st' → isOnline st' = isOnline st.
Proof.
  destruct items; simpl; intros H; [by simplify_eq|].
  by eapply syncItem_isOnline.
Qed.

Lemma processSyncQueue_isOnline st st' :
  processSyncQueue st = Some st' → isOnline st' = isOnline st.
Proof.
  unfold processSyncQueue. intros H. destruct (_ || _); [by simplify_eq|].
  by apply processSyncQueue_loop_isOnline in H.
Qed.

Lemma syncItem_throws_isOnline t tk st st' :
  syncItem_throws t tk st = Some st' → isOnline st' = isOnline st.
Proof.
  unfold syncItem_throws, processSyncQueue_catch. intros H.
  destruct (t_caller tk); [|by simplify_eq].
  simpl in H. destruct (heap st !! t_item tk); simplify_eq/=.
  apply processSyncQueue_loop_isOnline in H. by case_bool_decide.
Qed.

Lemma syncItem_succeeds_isOnline t tk st st' :
  syncItem_succeeds t tk st = Some st' → isOnline st' = isOnline st.
Proof.
  unfold syncItem_succeeds. intros H.
  destruct (heap st !! t_item tk); simplify_eq/=.
  destruct (t_caller tk); [|by simplify_eq].
  by apply processSyncQueue_loop_isOnline in H.
Qed.

Lemma run_settling_isOnline evs st st' :
  forallb settling evs = true → run st evs = Some st' →
  isOnline st' = isOnline st.
Proof.
  revert st. induction evs as [|ev evs IH]; simpl; intros st Hevs H.
  - by simplify_eq.
  - apply andb_prop in Hevs as [Hev Hevs].
    destruct (step st ev) as [st1|] eqn:Hstep; simplify_eq/=.
    rewrite (IH _ Hevs H). clear IH H Hevs.
    destruct ev; try discriminate; simpl in Hstep.
    + destruct (0 <=? dt); by simplify_eq.
    + destruct (tasks st !! t) as [[tk|]|]; try done.
      destruct (t_await tk); [|done].
      destruct res as [|[]]; simplify_eq;
        [by eapply syncItem_throws_isOnline|done
        |by eapply syncItem_throws_isOnline].
    + destruct (tasks st !! t) as [[tk|]|]; try done.
      destruct (t_await tk); [done|].
      destruct res as [|[]]; simplify_eq;
        [by eapply syncItem_throws_isOnline
        |by eapply syncItem_succeeds_isOnline
        |by eapply syncItem_throws_isOnline].
Qed.

(** The loop either ends with [saveSyncQueue] or suspends on its next
    item. *)
Lemma processSyncQueue_loop_inv items st st' :
  processSyncQueue_loop items st = Some st' →
  (items = [] ∧ st' = saveSyncQueue st)
  ∨ (∃ x rest,
       items = x :: rest ∧ heap st' = heap st ∧ syncQueue st' = syncQueue st
       ∧ tasks st' = tasks st ++ [Some (Task x (ByDrain rest) AwaitFetch)]).
Proof.
  destruct items as [|x rest]; simpl; intros H; [left; by simplify_eq|].
  right. exists x, rest. unfold syncItem in H.
  destruct (heap st !! x); by simplify_eq/=.
Qed.

(** The queue only shrinks while calls settle: [saveSyncQueue] filters it. *)
Lemma shrinks_refl st st' :
  syncQueue st' = syncQueue st → allocated st' = allocated st → shrinks st st'.
Proof. intros Hq Ha. split; [by rewrite Hq|done]. Qed.

Lemma shrinks_trans st1 st2 st3 :
  shrinks st1 st2 → shrinks st2 st3 → shrinks st1 st3.
Proof. intros [H1 E1] [H2 E2]. split; [by etrans|congruence]. Qed.

Lemma saveSyncQueue_shrinks st : shrinks st (saveSyncQueue st).
Proof. split; [apply sublist_filter|done]. Qed.

Lemma syncItem_shrinks r k st st' :
  syncItem r k st = Some st' → shrinks st st'.
Proof.
  unfold syncItem. intros H. destruct (heap st !! r); simplify_eq/=.
  by apply shrinks_refl.
Qed.

Lemma processSyncQueue_loop_shrinks items st st' :
  processSyncQueue_loop items st = Some st' → shrinks st st'.
Proof.
  destruct items; simpl; intros H.
  - simplify_eq. apply saveSyncQueue_shrinks.
  - by eapply syncItem_shrinks.
Qed.

Lemma processSyncQueue_shrinks st st' :
  processSyncQueue st = Some st' → shrinks st st'.
Proof.
  unfold processSyncQueue. intros H.
  destruct (_ || _); [simplify_eq; by apply shrinks_refl|].
  by apply processSyncQueue_loop_shrinks in H.
Qed.

Lemma syncItem_throws_shrinks t tk st st' :
  syncItem_throws t tk st = Some st' → shrinks st st'.
Proof.
  unfold syncItem_throws, processSyncQueue_catch. intros H.
  destruct (t_caller tk); [|simplify_eq; by apply shrinks_refl].
  simpl in H. destruct (heap st !! t_item tk); simplify_eq/=.
  apply processSyncQueue_loop_shrinks in H. by case_bool_decide.
Qed.

Lemma syncItem_succeeds_shrinks t tk st st' :
  syncItem_succeeds t tk st = Some st' → shrinks st st'.
Proof.
  unfold syncItem_succeeds. intros H.
  destruct (heap st !! t_item tk); simplify_eq/=.
  destruct (t_caller tk); [|simplify_eq; by apply shrinks_refl].
  by apply processSyncQueue_loop_shrinks in H.
Qed.

(** Every event but a new entry and a reload shrinks the queue. *)
Lemma step_shrinks st ev st' :
  step st ev = Some st' →
  match ev with
  | Enqueue _ _ _ _ _ | Reload _ => True
  | _ => shrinks st st'
  end.
Proof.
  destruct ev; simpl; [| | done | | | | | | | | |done]; intros H;
    unfold handleOnline, handleOffline, periodicSync, periodicCleanup,
      forcSync, retryTimer in H.
  - by apply processSyncQueue_shrinks in H.
  - simplify_eq. by apply shrinks_refl.
  - destruct (_ && _); [by apply processSyncQueue_shrinks|].
    simplify_eq. by apply shrinks_refl.
  - simplify_eq. apply saveSyncQueue_shrinks.
  - destruct (negb _); [simplify_eq; by apply shrinks_refl|].
    by apply processSyncQueue_shrinks.
  - destruct (0 <=? dt); simplify_eq. by apply shrinks_refl.
  - destruct (tasks st !! t) as [[tk|]|]; try done.
    destruct (t_await tk); [|done].
    destruct res as [|[]]; simplify_eq;
      [by eapply syncItem_throws_shrinks|by apply shrinks_refl
      |by eapply syncItem_throws_shrinks].
  - destruct (tasks st !! t) as [[tk|]|]; try done.
    destruct (t_await tk); [done|].
    destruct res as [|[]]; simplify_eq;
      [by eapply syncItem_throws_shrinks
      |by eapply syncItem_succeeds_shrinks
      |by eapply syncItem_throws_shrinks].
  - destruct (timers st !! k) as [[due r]|]; [|done].
    destruct (due <=? now st); [|done]. simpl in H.
    destruct (isOnline st); [|simplify_eq; by apply shrinks_refl].
    by apply syncItem_shrinks in H.
  - simplify_eq. by apply shrinks_refl.
Qed.

Lemma run_settling_shrinks evs st st' :
  forallb settling evs = true → run st evs = Some st' → shrinks st st'.
Proof.
  revert st. induction evs as [|ev evs IH]; simpl; intros st Hevs H.
  - simplify_eq. by apply shrinks_refl.
  - apply andb_prop in Hevs as [Hev Hevs].
    destruct (step st ev) as [st1|] eqn:Hstep; simplify_eq/=.
    apply (shrinks_trans _ st1); [|by apply IH].
    apply step_shrinks in Hstep. by destruct ev.
Qed.

Lemma shrinks_distinct_refs st st' :
  shrinks st st' → distinct_refs st → distinct_refs st'.
Proof.
  intros [Hsub Ha] [Hnd Hlt]. split; [by eapply sublist_NoDup|].
  intros r Hr. rewrite Ha. apply Hlt.
  by eapply elem_of_sublist.
Qed.

Lemma drain_NoDup st evs st' :
  forallb settling evs = true → drain st evs = Some st' →
  NoDup (syncQueue st) → NoDup (syncQueue st').
Proof.
  unfold drain. intros Hevs H Hnd.
  destruct (processSyncQueue st) as [st1|] eqn:H1; simplify_eq/=.
  eapply sublist_NoDup; [exact Hnd|].
  apply (shrinks_trans st st1 st');
    [by apply processSyncQueue_shrinks|by eapply run_settling_shrinks].
Qed.

(** In every reachable state the references of the queue are distinct. *)
Lemma reachable_distinct_refs st : reachable st → distinct_refs st.
Proof.
  intros (onLine & t & evs & Hrun).
  assert (distinct_refs (constructor onLine t emptyStorage)) as Hinit.
  { split; [constructor|]. by intros r ?%elem_of_nil. }
  revert Hrun Hinit. generalize (constructor onLine t emptyStorage).
  induction evs as [|ev evs IH]; simpl; intros s Hrun Hs; [by simplify_eq|].
  destruct (step s ev) as [s1|] eqn:Hstep; simplify_eq/=.
  apply (IH s1 Hrun). clear IH Hrun.
  pose proof (step_shrinks _ _ _ Hstep) as Hshr.
  destruct ev; try (by eapply shrinks_distinct_refs).
  - (* a new entry takes the next free reference *)
    simpl in Hstep. unfold addToSyncQueue in Hstep.
    match type of Hstep with
    | context [saveSyncQueue ?s0] =>
        assert (distinct_refs (saveSyncQueue s0)) as Hsaved
    end.
    { apply (shrinks_distinct_refs _ _ (saveSyncQueue_shrinks _)).
      destruct Hs as [Hnd Hlt]. split; simpl.
      - apply NoDup_app. split; [done|]. split; [|apply NoDup_singleton].
        intros r Hr ->%list_elem_of_singleton. apply Hlt in Hr. lia.
      - intros r [Hr| ->%list_elem_of_singleton]%elem_of_app; [|lia].
        apply Hlt in Hr. lia. }
    destruct (isOnline _); [|by simplify_eq].
    eapply shrinks_distinct_refs; [|exact Hsaved].
    by apply processSyncQueue_shrinks.
  - (* a reload numbers the stored items from 0 *)
    simpl in Hstep. simplify_eq. split; simpl.
    + apply NoDup_seq.
    + intros r Hr%elem_of_seq. lia.
Qed.

Lemma occurrences_NoDup r l :
  NoDup l → occurrences r l = if decide (r ∈ l) then 1%nat else 0%nat.
Proof.
  induction 1 as [|x l Hx _ IH]; [done|].
  rewrite occurrences_cons, IH. unfold hit.
  destruct (decide (x = r)) as [->|Hne].
  - rewrite decide_False by done. by rewrite decide_True by left.
  - destruct (decide (r ∈ l)).
    + by rewrite decide_True by (by right).
    + rewrite decide_False; [done|]. by intros [?|?]%elem_of_cons.
Qed.

(** One drain, then any settling of the calls: the balance of an item has
    grown by its occurrences in the snapshot. *)
Lemma drain_balance r st evs st' :
  isOnline st = true → forallb settling evs = true →
  drain st evs = Some st' →
  balance r st' = (balance r st + occurrences r (pendingItems st))%nat
  ∧ isOnline st' = true.
Proof.
  unfold drain. intros Hon Hevs H.
  destruct (processSyncQueue st) as [st1|] eqn:H1; simplify_eq/=.
  rewrite (run_settling_balance r _ _ _ Hevs H).
  rewrite (run_settling_isOnline _ _ _ Hevs H).
  rewrite (processSyncQueue_isOnline _ _ H1).
  split; [|done]. by apply processSyncQueue_balance.
Qed.

(** The page that is online with the stored alert is reached from a first
    visit: the alert is queued while offline and the page is loaded again
    online. *)
Lemma online_with_alert_reachable : reachable online_with_alert.
Proof.
  exists false, 0, (alert_queued ++ [Reload true]). vm_compute. reflexivity.
Qed.

(** The statement of C1 fails: the page is online with one pending alert;
    [processSyncQueue] is called twice before any response arrives; both
    calls hold the alert in their snapshot and both send it. *)
Lemma overlapping_drains_submit_twice : ¬ overlapping_drains_submit_once.
Proof.
  intros H.
  assert (∃ st2 st',
             drain online_with_alert [] = Some st2 ∧ ¬ idle st2
             ∧ drain st2 both_succeed = Some st' ∧ idle st'
             ∧ sends 0%nat st' = 2%nat) as (st2 & st' & H2 & Hbusy & H' & Hidle & Hs).
  { eexists _, _. split; [vm_compute; reflexivity|].
    split; [intros Hi; inversion Hi; discriminate|].
    split; [vm_compute; reflexivity|].
    split; [repeat constructor|reflexivity]. }
  specialize (H online_with_alert [] st2 both_succeed st' 0%nat).
  rewrite Hs in H. apply Nat.succ_inj in H; [discriminate H| | | | | | | | | |];
    try done.
  - constructor.
  - apply NoDup_singleton.
  - left.
Qed.

(** C1, amended: each drain sends every entry of its own snapshot once,
    whatever other drains do.  When a second drain is started before the
    calls of the first have settled, then, once all calls have settled, an
    entry has been sent once for each of the two snapshots that holds it: an
    entry pending at both invocations is submitted twice. *)
Theorem overlapping_drains_submit_per_snapshot st evs1 st2 evs2 st' r :
  idle st → isOnline st = true → NoDup (syncQueue st) →
  forallb settling evs1 = true → forallb settling evs2 = true →
  drain st evs1 = Some st2 →
  drain st2 evs2 = Some st' → idle st' →
  sends r st' =
    (sends r st
     + (if decide (r ∈ pendingItems st) then 1 else 0)
     + (if decide (r ∈ pendingItems st2) then 1 else 0))%nat.
Proof.
  intros Hidle Hon Hnd Hevs1 Hevs2 H1 H2 Hidle'.
  destruct (drain_balance r _ _ _ Hon Hevs1 H1) as [Hb1 Hon2].
  destruct (drain_balance r _ _ _ Hon2 Hevs2 H2) as [Hb2 _].
  pose proof (drain_NoDup _ _ _ Hevs1 H1 Hnd) as Hnd2.
  unfold balance in *.
  rewrite (idle_owed r st Hidle) in Hb1.
  rewrite (idle_owed r st' Hidle') in Hb2.
  rewrite occurrences_NoDup in Hb1 by (by apply NoDup_filter).
  rewrite occurrences_NoDup in Hb2 by (by apply NoDup_filter).
  lia.
Qed.

Lemma overlapping_drains_submit_per_snapshot_witness :
  ∃ st2 st',
    drain online_with_alert [] = Some st2
    ∧ drain st2 both_succeed = Some st'
    ∧ sends 0%nat st' = 2%nat.
Proof.
  destruct (drain online_with_alert []) as [st2|] eqn:H2;
    [|vm_compute in H2; discriminate H2].
  destruct (drain st2 both_succeed) as [st'|] eqn:H';
    [|vm_compute in H2; injection H2 as <-; vm_compute in H'; discriminate H'].
  exists st2, st'. split; [reflexivity|]. split; [exact H'|].
  rewrite (overlapping_drains_submit_per_snapshot online_with_alert [] st2
             both_succeed st' 0%nat); try reflexivity; try assumption.
  - vm_compute in H2. injection H2 as <-. reflexivity.
  - constructor.
  - apply NoDup_singleton.
  - vm_compute in H2. injection H2 as <-. vm_compute in H'. injection H' as <-.
    repeat constructor.
Defined.


(** *** Retries *)

Lemma processSyncQueue_catch_retry r rest it st :
  heap st !! r = Some it →
  (∀ r', r' ∈ rest → is_Some (heap st !! r')) →
  item_retries it + 1 < maxRetries →
  ∃ st',
    processSyncQueue_catch r rest st = Some st'
    ∧ timers st' = timers st ++ [(now st + retryDelay * (item_retries it + 1), r)]
    ∧ heap st' !! r = Some (set_retries (item_retries it + 1) it).
Proof.
  intros Hr Hrest Hlt. unfold processSyncQueue_catch. rewrite Hr. simpl.
  rewrite bool_decide_eq_false_2 by lia.
  match goal with
  | |- context [processSyncQueue_loop rest ?s] =>
      destruct (processSyncQueue_loop_total rest s) as (st' & H & _ & Ht & Hh)
  end.
  { intros r' Hr'. simpl. rewrite lookup_insert. case_decide; eauto. }
  exists st'. split; [done|]. rewrite Ht, Hh. simpl.
  by rewrite lookup_insert_eq.
Qed.

(** When a delivery attempt made by a drain fails and the incremented
    retry counter is still below [maxRetries], a timer for that entry is
    added, due [retryDelay * retries] milliseconds from now, with
    [retryDelay = 5000] and [retries] the incremented counter.  The timer
    belongs to the entry alone: it cannot fire before it is due, and when it
    fires on a page that is online it issues the request of this entry
    without a call of [processSyncQueue]. *)
Theorem failed_attempt_schedules_retry st t r rest a it ev :
  tasks st !! t = Some (Some (Task r (ByDrain rest) a)) →
  heap st !! r = Some it →
  (∀ r', r' ∈ rest → is_Some (heap st !! r')) →
  throws a t ev →
  item_retries it + 1 < maxRetries →
  ∃ st',
    step st ev = Some st'
    ∧ timers st' = timers st ++ [(now st + 5000 * (item_retries it + 1), r)]
    ∧ heap st' !! r = Some (set_retries (item_retries it + 1) it)
    ∧ ∀ s k due it',
        timers s !! k = Some (due, r) → heap s !! r = Some it' →
        (now s < due → step s (TimerFires k) = None)
        ∧ (due ≤ now s → isOnline s = true →
           ∃ s', step s (TimerFires k) = Some s'
                 ∧ sent s' = sent s ++ [request_of r it']
                 ∧ drains s' = drains s).
Proof.
  intros Ht Hr Hrest Hev Hlt.
  destruct (processSyncQueue_catch_retry r rest it
              (with_tasks (<[t := None]> (tasks st)) st) Hr Hrest Hlt)
    as (st' & Hc & Htm & Hh).
  exists st'. split; [|split; [exact Htm|split; [exact Hh|]]].
  - destruct a; destruct Hev as [-> | ->]; simpl; rewrite Ht; exact Hc.
  - intros s k due it' Hk Hit'. simpl. rewrite Hk. split.
    + intros Hnow. by rewrite (proj2 (Z.leb_gt _ _)).
    + intros Hdue Hon. rewrite (proj2 (Z.leb_le _ _)) by done.
      unfold retryTimer, syncItem. simpl. rewrite Hon, Hit'. simpl.
      by eexists.
Qed.

Lemma failed_attempt_schedules_retry_witness :
  ∃ st',
    step alert_in_flight (FetchSettles 0 FetchRejects) = Some st'
    ∧ timers st' = [(5000, 0%nat)].
Proof.
  destruct (failed_attempt_schedules_retry alert_in_flight 0%nat 0%nat []
              AwaitFetch flood_item (FetchSettles 0 FetchRejects))
    as (st' & Hstep & Htm & _).
  - reflexivity.
  - reflexivity.
  - intros r' Hr'. inversion Hr'.
  - left. reflexivity.
  - reflexivity.
  - exists st'. split; [exact Hstep|exact Htm].
Defined.


(** *** The retry timer does not look at the entry *)

(** C3 fails on the code: the callback of the retry timer tests [isOnline]
    only and calls [syncItem(item)] whatever the status of the item.  After
    [completed_before_retry] the alert is completed, and the timer sends it
    again; after [failed_before_retry] the alert is failed, and the timer
    sends it again, and an answer [{success: true}] turns it from failed to
    completed. *)
Theorem retry_timer_sends_settled_entry :
  (∃ st st',
     run first_visit completed_before_retry = Some st
     ∧ status_of (heap st) 0%nat = Some "completed"
     ∧ sent st = [alert_request; alert_request]
     ∧ step st (TimerFires 0) = Some st'
     ∧ sent st' = [alert_request; alert_request; alert_request])
  ∧ (∃ st st' st'',
       run first_visit failed_before_retry = Some st
       ∧ status_of (heap st) 0%nat = Some "failed"
       ∧ sends 0%nat st = 3%nat
       ∧ step st (TimerFires 0) = Some st'
       ∧ sends 0%nat st' = 4%nat
       ∧ run st' [FetchSettles 3 (FetchResponse true);
                  JsonSettles 3 (JsonValue true)] = Some st''
       ∧ status_of (heap st'') 0%nat = Some "completed").
Proof.
  split.
  - eexists _, _. split; [vm_compute; reflexivity|].
    split; [vm_compute; reflexivity|].
    split; [vm_compute; reflexivity|].
    split; vm_compute; reflexivity.
  - eexists _, _, _. split; [vm_compute; reflexivity|].
    split; [vm_compute; reflexivity|].
    split; [vm_compute; reflexivity|].
    split; [vm_compute; reflexivity|].
    split; [vm_compute; reflexivity|].
    split; vm_compute; reflexivity.
Qed.

(** A delivery attempt made by the retry timer that fails is caught by
    nothing: the callback drops the promise of [syncItem].  Whatever way it
    fails, the call just ends: no item changes, no timer is added, nothing
    is sent or saved. *)
Lemma failed_retry_is_dropped st t r a ev :
  tasks st !! t = Some (Some (Task r ByTimer a)) → throws a t ev →
  step st ev = Some (with_tasks (<[t := None]> (tasks st)) st).
Proof.
  intros Ht Hev.
  destruct a; destruct Hev as [-> | ->]; simpl; by rewrite Ht.
Qed.

(** C9 fails on the code for the delivery attempts that the retry timer
    makes.  The alert is queued offline; the page goes online, the request
    of the drain is rejected, one failure is counted and a retry is due
    5000 ms later.  The timer fires and sends the alert again.  When this
    request fails too, in any of the four ways, the counter is still 1, below
    [maxRetries], the alert is still pending, and no timer is scheduled:
    the alert waits for the next full drain. *)
Theorem failed_retry_schedules_no_retry :
  ∃ st,
    run first_visit retry_in_flight = Some st
    ∧ sent st = [alert_request; alert_request]
    ∧ drains st = 1%nat
    ∧ tasks st !! 1%nat = Some (Some (Task 0%nat ByTimer AwaitFetch))
    ∧ timers st = []
    ∧ (item_retries <$> heap st !! 0%nat) = Some 1
    ∧ ∀ evs,
        evs ∈ [[FetchSettles 1 FetchRejects];
               [FetchSettles 1 (FetchResponse false)];
               [FetchSettles 1 (FetchResponse true); JsonSettles 1 JsonRejects];
               [FetchSettles 1 (FetchResponse true);
                JsonSettles 1 (JsonValue false)]] →
        ∃ st',
          run st evs = Some st'
          ∧ (item_retries <$> heap st' !! 0%nat) = Some 1
          ∧ (item_status <$> heap st' !! 0%nat) = Some "pending"
          ∧ timers st' = []
          ∧ idle st'
          ∧ sent st' = sent st.
Proof.
  destruct (run first_visit retry_in_flight) as [st|] eqn:Hrun;
    [|vm_compute in Hrun; discriminate Hrun].
  exists st. split; [reflexivity|].
  vm_compute in Hrun. injection Hrun as <-.
  split; [reflexivity|]. split; [reflexivity|]. split; [reflexivity|].
  split; [reflexivity|]. split; [reflexivity|].
  intros evs Hevs.
  repeat (apply elem_of_cons in Hevs as [->|Hevs]);
    [| | | |by apply elem_of_nil in Hevs];
    (eexists; split; [vm_compute; reflexivity|]);
    (split; [vm_compute; reflexivity|]);
    (split; [vm_compute; reflexivity|]);
    (split; [vm_compute; reflexivity|]);
    (split; [repeat constructor|vm_compute; reflexivity]).
Qed.

(** One failing retry between two failing drains: after three requests that
    all failed the alert is still pending, with two retries counted. *)
Lemma retry_timer_failure_not_counted :
  ∃ st,
    run first_visit retry_between_drains = Some st
    ∧ sends 0%nat st = 3%nat
    ∧ (item_status <$> heap st !! 0%nat) = Some "pending"
    ∧ (item_retries <$> heap st !! 0%nat) = Some 2.
Proof.
  eexists. split; [vm_compute; reflexivity|].
  split; [vm_compute; reflexivity|].
  split; vm_compute; reflexivity.
Qed.

(** *** Retries are bounded when drains do not overlap *)

(** The statement of C2 fails: both of two overlapping drains hold the alert
    in their snapshot when it has two failures counted; both requests fail
    and both [catch] blocks count: the counter reaches 4. *)
Lemma overlapping_failures_pass_maxRetries : ¬ retries_never_exceed_maxRetries.
Proof.
  intros H.
  assert (∃ st it, run first_visit overlapping_failures = Some st
                   ∧ heap st !! 0%nat = Some it ∧ item_retries it = 4)
    as (st & it & Hrun & Hit & Hretries).
  { eexists _, _. split; [vm_compute; reflexivity|].
    split; vm_compute; reflexivity. }
  specialize (H st 0%nat it). rewrite Hretries in H.
  assert (4 ≤ maxRetries) as Hle; [|vm_compute in Hle; by apply Hle].
  apply H; [|exact Hit]. exists false, 0, overlapping_failures. exact Hrun.
Qed.


Lemma idleb_idle st : idleb st = true ↔ idle st.
Proof.
  unfold idleb, idle. induction (tasks st) as [|[tk|] ts IH]; simpl.
  - split; [constructor|done].
  - split; [done|]. intros H. inversion H. discriminate.
  - rewrite IH. split; [by constructor|]. by inversion 1.
Qed.

Lemma idle_lookup st t x : idle st → tasks st !! t = Some x → x = None.
Proof. intros Hidle Ht. exact (Forall_lookup_1 _ _ _ _ Hidle Ht). Qed.

(** Nothing but the clock changes while no call is suspended. *)
Lemma idle_run evs st st' :
  idle st → forallb settling evs = true → run st evs = Some st' →
  heap st' = heap st ∧ syncQueue st' = syncQueue st ∧ tasks st' = tasks st.
Proof.
  revert st. induction evs as [|ev evs IH]; simpl; intros st Hidle Hevs H.
  - by simplify_eq.
  - apply andb_prop in Hevs as [Hev Hevs].
    destruct (step st ev) as [st1|] eqn:Hstep; simplify_eq/=.
    destruct ev; try discriminate; simpl in Hstep.
    + destruct (0 <=? dt); simplify_eq.
      by apply (IH (with_now (now st + dt) st) Hidle Hevs) in H.
    + destruct (tasks st !! t) as [[tk|]|] eqn:Ht; try done.
      by apply (idle_lookup _ _ _ Hidle) in Ht.
    + destruct (tasks st !! t) as [[tk|]|] eqn:Ht; try done.
      by apply (idle_lookup _ _ _ Hidle) in Ht.
Qed.

Lemma lookup_running (nones : list (option task)) tk t tk' :
  Forall (λ t, t = None) nones →
  (nones ++ [Some tk]) !! t = Some (Some tk') →
  t = length nones ∧ tk' = tk.
Proof.
  intros Hnones Ht. apply lookup_snoc_Some in Ht as [[_ Ht]|[-> Ht]].
  - by apply (Forall_lookup_1 _ _ _ _ Hnones) in Ht.
  - by simplify_eq.
Qed.

Lemma insert_running (nones : list (option task)) x y :
  <[length nones := y]> (nones ++ [x]) = nones ++ [y].
Proof.
  rewrite insert_app_r_alt by lia. by rewrite Nat.sub_diag.
Qed.

(** One settling event while a drain waits for the call of [cur]: the call
    stays suspended, or the item has been attempted and the loop goes on. *)
Lemma step_in_drain st ev st1 nones cur rest a :
  tasks st = nones ++ [Some (Task cur (ByDrain rest) a)] →
  Forall (λ t, t = None) nones →
  settling ev = true → step st ev = Some st1 →
  (heap st1 = heap st ∧ syncQueue st1 = syncQueue st
   ∧ ∃ a', tasks st1 = nones ++ [Some (Task cur (ByDrain rest) a')])
  ∨ (∃ it it' s,
       heap st !! cur = Some it ∧ attempted it it'
       ∧ heap s = <[cur := it']> (heap st) ∧ syncQueue s = syncQueue st
       ∧ tasks s = nones ++ [None]
       ∧ processSyncQueue_loop rest s = Some st1).
Proof.
  intros Htasks Hnones Hev Hstep.
  assert (∀ t tk, tasks st !! t = Some (Some tk) →
            t = length nones ∧ tk = Task cur (ByDrain rest) a) as Hrun.
  { intros t tk Ht. rewrite Htasks in Ht. by eapply lookup_running. }
  assert (∀ st1, syncItem_throws (length nones) (Task cur (ByDrain rest) a) st
                 = Some st1 →
            ∃ it it' s,
              heap st !! cur = Some it ∧ attempted it it'
              ∧ heap s = <[cur := it']> (heap st) ∧ syncQueue s = syncQueue st
              ∧ tasks s = nones ++ [None]
              ∧ processSyncQueue_loop rest s = Some st1) as Hthrows.
  { clear Hstep. intros s1 H. unfold syncItem_throws, processSyncQueue_catch in H.
    simpl in H. destruct (heap st !! cur) as [it|]; simplify_eq/=.
    rewrite Htasks, insert_running in H.
    exists it, (count_failure it). unfold attempted, count_failure.
    case_bool_decide; eexists; (split; [done|]); (split; [by right|]);
      (split; [|split; [|split; [|exact H]]]); done. }
  destruct ev; try discriminate; simpl in Hstep.
  - destruct (0 <=? dt); simplify_eq. left. simpl. eauto.
  - destruct (tasks st !! t) as [[tk|]|] eqn:Ht; try done.
    destruct (Hrun _ _ Ht) as [-> ->]. simpl in Hstep.
    destruct a; [|done].
    destruct res as [|[]]; [right; by apply Hthrows| |right; by apply Hthrows].
    simplify_eq. left. simpl. rewrite Htasks, insert_running. eauto.
  - destruct (tasks st !! t) as [[tk|]|] eqn:Ht; try done.
    destruct (Hrun _ _ Ht) as [-> ->]. simpl in Hstep.
    destruct a; [done|].
    destruct res as [|[]]; [right; by apply Hthrows| |right; by apply Hthrows].
    right. unfold syncItem_succeeds in Hstep. simpl in Hstep.
    destruct (heap st !! cur) as [it|]; simplify_eq/=.
    exists it, (set_completedAt (now st) (set_status "completed" it)).
    rewrite Htasks, insert_running in Hstep.
    eexists. split; [done|]. split; [by left|].
    split; [|split; [|split; [|exact Hstep]]]; done.
Qed.


Lemma drained_same todo st1 st st' :
  heap st1 = heap st → syncQueue st1 = syncQueue st →
  drained todo st1 st' → drained todo st st'.
Proof. unfold drained. by intros -> ->. Qed.

Lemma drained_nil st st' :
  heap st' = heap st → syncQueue st' = syncQueue st → drained [] st st'.
Proof.
  intros Hh Hq. unfold drained. rewrite Hh, Hq. split; [|done].
  intros r it Hr. exists it. split; [done|].
  rewrite decide_False; [done|]. by intros ?%elem_of_nil.
Qed.

(** The end of a drain: the last item has been attempted and
    [saveSyncQueue] has run. *)
Lemma drained_last cur it it' st s st' :
  heap st !! cur = Some it → attempted it it' →
  heap s = <[cur := it']> (heap st) → syncQueue s = syncQueue st →
  heap st' = heap (saveSyncQueue s) →
  syncQueue st' = syncQueue (saveSyncQueue s) →
  drained [cur] st st'.
Proof.
  intros Hcur Hatt Hh Hq Hh' Hq'. simpl in Hh', Hq'.
  unfold drained. rewrite Hh', Hq', Hh, Hq. split; [|split].
  - intros r it0 Hr. rewrite lookup_insert. case_decide as Heq.
    + subst r. simplify_eq. exists it'. split; [done|].
      by rewrite decide_True by left.
    + exists it0. split; [done|].
      rewrite decide_False; [done|]. by intros ?%list_elem_of_singleton.
  - intros x Hx Hst. apply list_elem_of_filter. split; [|done].
    unfold keep_ref, status_of in *.
    destruct (<[cur:=it']> (heap st) !! x) as [itx|]; simplify_eq/=.
    unfold keep. rewrite Hst. reflexivity.
  - apply NoDup_filter.
Qed.

(** A drain that waits for the call of [cur], with [rest] to follow, run to
    its end. *)
Lemma in_drain_run evs :
  ∀ st st' nones cur rest a,
    tasks st = nones ++ [Some (Task cur (ByDrain rest) a)] →
    Forall (λ t, t = None) nones → NoDup (cur :: rest) →
    forallb settling evs = true → run st evs = Some st' → idle st' →
    drained (cur :: rest) st st'.
Proof.
  induction evs as [|ev evs IH];
    intros st st' nones cur rest a Htasks Hnones Hnd Hevs Hrun Hidle.
  - simpl in Hrun. simplify_eq. unfold idle in Hidle. rewrite Htasks in Hidle.
    apply Forall_app in Hidle as [_ Hidle]. by inversion Hidle.
  - simpl in Hevs, Hrun. apply andb_prop in Hevs as [Hev Hevs].
    destruct (step st ev) as [st1|] eqn:Hstep; simplify_eq/=.
    destruct (step_in_drain _ _ _ _ _ _ _ Htasks Hnones Hev Hstep)
      as [(Hh & Hq & a' & Ht1)|(it & it' & s & Hcur & Hatt & Hh & Hq & Hts & Hloop)].
    { apply (drained_same _ st1); [done..|]. by eapply IH. }
    apply processSyncQueue_loop_inv in Hloop
      as [[-> ->]|(x & rest' & -> & Hh1 & Hq1 & Ht1)].
    + assert (idle (saveSyncQueue s)) as Hidle1.
      { unfold idle. simpl. rewrite Hts. apply Forall_app. split; [done|].
        by repeat constructor. }
      destruct (idle_run _ _ _ Hidle1 Hevs Hrun) as (Hh' & Hq' & _).
      by eapply drained_last.
    + rewrite Hts in Ht1.
      assert (drained (x :: rest') st1 st') as (Hitems & Hkeep & Hnodup).
      { eapply IH; [exact Ht1| |by apply NoDup_cons in Hnd as [_ ?]|done..].
        apply Forall_app. split; [done|]. by repeat constructor. }
      apply NoDup_cons in Hnd as [Hcurx _].
      rewrite Hh1, Hh in Hitems. rewrite Hq1, Hq in Hkeep, Hnodup.
      split; [|done].
      intros r it0 Hr. destruct (decide (r = cur)) as [->|Hne].
      * simplify_eq. destruct (Hitems cur it') as (it'' & Hit'' & Hsame);
          [by rewrite lookup_insert_eq|].
        rewrite decide_False in Hsame by done. subst it''.
        exists it'. split; [done|]. rewrite decide_True by left. done.
      * destruct (Hitems r it0) as (it'' & Hit'' & Hcase);
          [by rewrite lookup_insert_ne|].
        exists it''. split; [done|].
        destruct (decide (r ∈ x :: rest')).
        -- rewrite decide_True by (by right). done.
        -- rewrite decide_False; [done|].
           intros [?|?]%elem_of_cons; done.
Qed.

(** A whole drain, from a state without suspended calls to the next. *)
Lemma drain_drained st evs st' :
  idle st → isOnline st = true → NoDup (syncQueue st) →
  forallb settling evs = true → drain st evs = Some st' → idle st' →
  drained (pendingItems st) st st'.
Proof.
  intros Hidle Hon Hnd Hevs Hdrain Hidle'. unfold drain in Hdrain.
  destruct (processSyncQueue st) as [st1|] eqn:H1; simplify_eq/=.
  unfold processSyncQueue in H1. simpl in H1.
  assert (∀ s, heap s = heap st → syncQueue s = syncQueue st →
               tasks s = tasks st → run s evs = Some st' →
               drained [] st st') as Hquiet.
  { intros s Hh Hq Ht Hrun.
    assert (idle s) as Hs by (unfold idle; by rewrite Ht).
    destruct (idle_run _ _ _ Hs Hevs Hrun) as (Hh' & Hq' & _).
    apply drained_nil; congruence. }
  rewrite Hon in H1. simpl in H1. case_bool_decide as Hq.
  - simplify_eq. assert (pendingItems st = []) as ->.
    { unfold pendingItems, with_status. by rewrite Hq. }
    by apply (Hquiet (with_drains (S (drains st)) st)).
  - apply processSyncQueue_loop_inv in H1
      as [[Hp ->]|(x & rest & Hp & Hh1 & Hq1 & Ht1)]; simpl in *.
    + change (pendingItems st = []) in Hp. rewrite Hp.
      assert (idle (saveSyncQueue (with_drains (S (drains st)) st))) as Hs
        by done.
      destruct (idle_run _ _ _ Hs Hevs Hdrain) as (Hh' & Hq' & _).
      simpl in Hh', Hq'.
      split; [|split].
      * intros r it Hr. exists it. rewrite Hh'. split; [done|].
        rewrite decide_False; [done|]. by intros ?%elem_of_nil.
      * intros y Hy Hst. rewrite Hq'. apply list_elem_of_filter.
        split; [|done]. rewrite Hh' in Hst. simpl in Hst.
        unfold keep_ref, status_of in *.
        destruct (heap st !! y) as [ity|]; simplify_eq/=.
        unfold keep. by rewrite Hst.
      * intros _. rewrite Hq'. by apply NoDup_filter.
    + change (pendingItems st = x :: rest) in Hp. rewrite Hp.
      apply (drained_same _ st1); [done..|].
      eapply in_drain_run; [exact Ht1|exact Hidle| |done..].
      rewrite <- Hp. by apply NoDup_filter.
Qed.


(** One drain keeps the account of an entry. *)
Lemma drain_accounted n0 r st evs st' :
  idle st → isOnline st = true → NoDup (syncQueue st) → accounted n0 r st →
  forallb settling evs = true → drain st evs = Some st' → idle st' →
  accounted n0 r st' ∧ isOnline st' = true ∧ NoDup (syncQueue st').
Proof.
  intros Hidle Hon Hnd (it & Hr & Hacc) Hevs Hdrain Hidle'.
  destruct (drain_drained _ _ _ Hidle Hon Hnd Hevs Hdrain Hidle')
    as (Hitems & Hkeep & Hnd').
  destruct (drain_balance r _ _ _ Hon Hevs Hdrain) as [Hbal Hon'].
  unfold balance in Hbal.
  rewrite (idle_owed r st Hidle), (idle_owed r st' Hidle') in Hbal.
  rewrite occurrences_NoDup in Hbal by (by apply NoDup_filter).
  split; [|by auto].
  destruct (Hitems r it Hr) as (it' & Hr' & Hcase).
  exists it'. split; [done|].
  assert (r ∈ pendingItems st ↔ item_status it = "pending" ∧ r ∈ syncQueue st)
    as Hpending.
  { unfold pendingItems, with_status. rewrite list_elem_of_filter.
    unfold status_of. rewrite Hr. simpl.
    split; intros [? ?]; (split; [congruence|done]). }
  destruct Hacc as [Hdone|[Hsends [(Hlt & Hst & Hq)|[Hmax Hst]]]].
  - rewrite decide_False in Hcase by (rewrite Hpending, Hdone; by intros [? _]).
    subst it'. by left.
  - rewrite decide_True in Hcase by (by apply Hpending).
    rewrite decide_True in Hbal by (by apply Hpending).
    destruct Hcase as [Hdone| ->]; [by left|]. right.
    unfold count_failure in *. unfold maxRetries in *.
    case_bool_decide; simpl.
    + split; [lia|]. right. split; [lia|done].
    + split; [lia|]. left. split; [lia|]. split; [done|].
      apply Hkeep; [done|]. unfold status_of. rewrite Hr'. simpl.
      by rewrite Hst.
  - rewrite decide_False in Hcase by (rewrite Hpending, Hst; by intros [? _]).
    rewrite decide_False in Hbal by (rewrite Hpending, Hst; by intros [? _]).
    subst it'. right. split; [lia|]. by right.
Qed.

Lemma drains_in_turn_accounted n0 r evss :
  ∀ st st',
    idle st → isOnline st = true → NoDup (syncQueue st) → accounted n0 r st →
    drains_in_turn st evss = Some st' → accounted n0 r st'.
Proof.
  induction evss as [|evs evss IH]; simpl;
    intros st st' Hidle Hon Hnd Hacc Hturn; [by simplify_eq|].
  destruct (forallb settling evs) eqn:Hevs; [|done].
  destruct (drain st evs) as [st1|] eqn:Hdrain; simplify_eq/=.
  destruct (idleb st1) eqn:Hidle1; [|done].
  apply idleb_idle in Hidle1.
  destruct (drain_accounted n0 r _ _ _ Hidle Hon Hnd Hacc Hevs Hdrain Hidle1)
    as (Hacc1 & Hon1 & Hnd1).
  by eapply IH.
Qed.

(** C2, amended: while drains do not overlap, and counting the requests that
    drains send, an entry that has not been delivered has been sent as often
    as failures are counted on it; the count never exceeds [maxRetries] (3);
    the entry is failed exactly when the count is [maxRetries] and pending
    below.  So after [maxRetries] failed attempts the entry is failed, and
    further drains send nothing for it. *)
Theorem failing_entry_attempts_bounded st evss st' r it it' :
  idle st → isOnline st = true → NoDup (syncQueue st) →
  r ∈ syncQueue st → heap st !! r = Some it →
  item_status it = "pending" → item_retries it = 0 →
  drains_in_turn st evss = Some st' →
  heap st' !! r = Some it' → item_status it' ≠ "completed" →
  Z.of_nat (sends r st') = Z.of_nat (sends r st) + item_retries it'
  ∧ item_retries it' ≤ maxRetries
  ∧ (item_status it' = "failed" ↔ item_retries it' = maxRetries)
  ∧ (item_status it' = "pending" ↔ item_retries it' < maxRetries).
Proof.
  intros Hidle Hon Hnd Hq Hr Hst Hretries Hturn Hr' Hnot.
  assert (accounted (sends r st) r st) as Hacc.
  { exists it. split; [done|]. right. split; [lia|]. left.
    unfold maxRetries. split; [lia|done]. }
  destruct (drains_in_turn_accounted _ _ _ _ _ Hidle Hon Hnd Hacc Hturn)
    as (it1 & Hr1 & Hcase).
  simplify_eq. unfold maxRetries in *.
  destruct Hcase as [?|[Hsends [(Hlt & Hst' & _)|[Hmax Hst']]]]; [done|..];
    rewrite Hst'; (split; [done|]); (split; [lia|]);
    split; split; intros; try done; lia.
Qed.

Lemma failing_entry_attempts_bounded_witness :
  ∃ st' it',
    drains_in_turn online_with_alert four_failing_drains = Some st'
    ∧ heap st' !! 0%nat = Some it'
    ∧ sends 0%nat st' = 3%nat
    ∧ item_status it' = "failed".
Proof.
  destruct (drains_in_turn online_with_alert four_failing_drains)
    as [st'|] eqn:Hturn; [|vm_compute in Hturn; discriminate Hturn].
  destruct (heap st' !! 0%nat) as [it'|] eqn:Hit';
    [|vm_compute in Hturn; injection Hturn as <-; vm_compute in Hit';
      discriminate Hit'].
  exists st', it'. split; [reflexivity|]. split; [exact Hit'|].
  assert (item_retries it' = 3 ∧ item_status it' ≠ "completed") as [H3 Hnot].
  { vm_compute in Hturn. injection Hturn as <-. vm_compute in Hit'.
    injection Hit' as <-. split; [reflexivity|discriminate]. }
  destruct (failing_entry_attempts_bounded online_with_alert
              four_failing_drains st' 0%nat flood_item it')
    as (Hsends & _ & Hfailed & _); try reflexivity; try assumption.
  - constructor.
  - apply NoDup_singleton.
  - left.
  - split; [|by apply Hfailed].
    rewrite H3 in Hsends. change (sends 0%nat online_with_alert) with 0%nat in Hsends.
    lia.
Defined.

End OfflineFacts.

(** ** Properties of the weather cache *)

Module WeatherFacts.
Import Weather.

(** With a record stored at [t], [getCachedWeatherData] at [now] returns the
    record and leaves it stored when [now - t <= maxAge], and otherwise
    returns [null] and removes the record; when the key is absent it returns
    [null].  [maxAge] is six hours. *)
Theorem getCachedWeatherData_fresh_or_evicted now t f :
  getCachedWeatherData now None = (None, None)
  ∧ getCachedWeatherData now (Some (WeatherData (Some t) f)) =
      (if bool_decide (now - t ≤ maxAge)
       then (Some (WeatherData (Some t) f), Some (WeatherData (Some t) f))
       else (None, None))
  ∧ maxAge = 6 * 3600 * 1000.
Proof.
  split; [reflexivity|]. split; [|reflexivity].
  unfold getCachedWeatherData. simpl.
  case_bool_decide as Hage.
  - by rewrite (proj2 (Z.ltb_ge _ _)).
  - rewrite (proj2 (Z.ltb_lt _ _)); [done|lia].
Qed.

(** The record written by [cacheWeatherData] at [t] is served 5h59m later
    and evicted 6h01m later. *)
Lemma cached_weather_one_minute_either_side t d c :
  let stored := cacheWeatherData t d c in
  getCachedWeatherData (t + 359 * 60000) stored = (stored, stored)
  ∧ getCachedWeatherData (t + 361 * 60000) stored = (None, None).
Proof.
  simpl. unfold getCachedWeatherData, cacheWeatherData, maxAge. simpl.
  rewrite (proj2 (Z.ltb_ge _ _)) by lia.
  rewrite (proj2 (Z.ltb_lt _ _)) by lia. done.
Qed.

(** The [[]] that [initializeOfflineStores] writes under the key has no
    [cachedAt]: it is returned as it is, at any time. *)
Lemma placeholder_is_returned now f :
  getCachedWeatherData now (Some (WeatherData None f))
  = (Some (WeatherData None f), Some (WeatherData None f)).
Proof. reflexivity. Qed.

(** C5 fails on the code where no record is stored.  On a page whose
    [localStorage] is empty, [initializeOfflineStores] writes ['[]'] under
    [cachedWeatherData] before the weather manager is made: whatever was
    stored, the key is not absent when a page starts.  No weather record has
    been cached, and yet
    [getCachedWeatherData] returns the empty array at any time, not [null]
    (its age is [NaN], and [NaN > maxAge] is false), and leaves it stored;
    [isCacheValid] is true. *)
Theorem no_record_stored_returns_placeholder now :
  Stores.initializeOfflineStores ∅ !! "cachedWeatherData" = Some "[]"
  ∧ initializeOfflineStores None = Some placeholder
  ∧ getCachedWeatherData now (initializeOfflineStores None)
    = (Some placeholder, Some placeholder)
  ∧ fst (isCacheValid now (initializeOfflineStores None)) = true
  ∧ getCacheAge now (initializeOfflineStores None) = Some None
  ∧ ∀ c, initializeOfflineStores c ≠ None.
Proof.
  split; [vm_compute; reflexivity|]. split; [reflexivity|].
  split; [reflexivity|]. split; [reflexivity|]. split; [reflexivity|].
  by intros [d|].
Qed.

End WeatherFacts.

(** ** Properties of the service worker *)

Module SWFacts.
Import SW.

(** C7: a GET request for a static file is answered from the cache when the
    cache holds a response for it, and then nothing is fetched and nothing
    changes; otherwise the request is fetched: a response that is [ok] is put
    into the static cache and returned, another response is returned as it
    is, and when the fetch fails the answer is the text "File not available
    offline" with status 503. *)
Theorem static_file_cache_first net dbOk now rnd rq w :
  method rq = "GET" → isStaticFile rq = true →
  (∀ c, caches_match w (url rq) = Some c →
     onFetch net dbOk now rnd rq w = (Responded c, w))
  ∧ (caches_match w (url rq) = None →
     (∀ r, net rq = Some r → ok r = true →
        onFetch net dbOk now rnd rq w
        = (Responded r, put_static (url rq) r (snd (fetch net rq w))))
     ∧ (∀ r, net rq = Some r → ok r = false →
          onFetch net dbOk now rnd rq w = (Responded r, snd (fetch net rq w)))
     ∧ (net rq = None →
        onFetch net dbOk now rnd rq w
        = (Responded (Response (Text "File not available offline") 503 []),
           snd (fetch net rq w))))
  ∧ fetched (snd (fetch net rq w)) = fetched w ++ [rq].
Proof.
  intros Hget Hstatic. unfold onFetch, handleStaticFile.
  rewrite bool_decide_eq_true_2 by done. rewrite Hstatic.
  split; [|split; [|reflexivity]].
  - intros c ->. reflexivity.
  - intros ->. unfold fetch. simpl. split; [|split].
    + intros r -> ->. reflexivity.
    + intros r -> ->. reflexivity.
    + intros ->. reflexivity.
Qed.


Lemma static_file_cache_first_witness :
  onFetch no_network true 0 0%N css_request css_cached
  = (Responded css_response, css_cached).
Proof.
  destruct (static_file_cache_first no_network true 0 0%N css_request css_cached)
    as (Hcached & _); [reflexivity|reflexivity|].
  apply Hcached. reflexivity.
Defined.

(** C6: a GET request to the API for which the fetch fails and the caches
    hold nothing is answered by the synthesized response: for [/api/sync] the
    empty data with [offline: true], for [/api/voice-query] the canned
    acknowledgement, both with the default status 200, and for every other
    path the error "Service unavailable offline" with status 503. *)
Theorem offline_api_response_synthesized net dbOk now rnd rq w :
  method rq = "GET" → isStaticFile rq = false → isAPIRequest rq = true →
  net rq = None → caches_match w (url rq) = None →
  ∃ r,
    onFetch net dbOk now rnd rq w = (Responded r, snd (fetch net rq w))
    ∧ resp_headers r = [("content-type", "application/json")]
    ∧ (pathname rq = "/api/sync" →
       status r = 200
       ∧ resp_body r =
           Json (JObject
                   [("success", JBool true);
                    ("data",
                     JObject [("sos", JArray []); ("queries", JArray []);
                              ("weather", JArray [])]);
                    ("offline", JBool true)]))
    ∧ (pathname rq = "/api/voice-query" →
       status r = 200
       ∧ resp_body r =
           Json (JObject
                   [("success", JBool true);
                    ("response", JString offline_acknowledgement);
                    ("offline", JBool true)]))
    ∧ (pathname rq ≠ "/api/sync" → pathname rq ≠ "/api/voice-query" →
       status r = 503
       ∧ resp_body r =
           Json (JObject
                   [("success", JBool false);
                    ("error", JString "Service unavailable offline");
                    ("offline", JBool true)])).
Proof.
  intros Hget Hstatic Hapi Hnet Hmiss.
  exists (handleOfflineAPIResponse rq). split; [|split].
  - unfold onFetch, handleAPIRequest, fetch.
    rewrite bool_decide_eq_true_2 by done.
    rewrite Hstatic, Hapi, Hnet. unfold caches_match in *. simpl.
    by rewrite Hmiss.
  - unfold handleOfflineAPIResponse. by repeat case_bool_decide.
  - unfold handleOfflineAPIResponse.
    split; [|split].
    + intros ->. by rewrite bool_decide_eq_true_2.
    + intros ->. rewrite bool_decide_eq_false_2 by done.
      by rewrite bool_decide_eq_true_2.
    + intros H1 H2. by rewrite !bool_decide_eq_false_2.
Qed.

Lemma offline_api_response_synthesized_witness :
  ∃ w,
    onFetch no_network true 0 0%N sync_request emptyWorld
    = (Responded (Response (Json offline_sync) 200 json_headers), w).
Proof.
  destruct (offline_api_response_synthesized no_network true 0 0%N
              sync_request emptyWorld)
    as (r & Hr & _); try reflexivity.
  eexists. reflexivity.
Defined.

End SWFacts.

(** ** Writes that fail at the network *)

Module AppFacts.
Import App.





(** A POST request that has a body, as the alert that the page posts: when
    its fetch fails, reading the body again throws in the [catch] block.
    The handler rejects, the request of the page fails, and nothing is
    stored, neither by the worker nor in the sync queue of the page. *)
Lemma failed_post_with_body_rejected net dbOk now rnd rq sys b :
  SW.method rq = "POST" → net rq = None → SW.req_body rq = Some b →
  ∃ w',
    fetchEvent net dbOk now rnd rq sys
    = (SW.RespondedRejection, System (page sys) w')
    ∧ SW.failedRequests w' = SW.failedRequests (worker sys)
    ∧ SW.STATIC_CACHE w' = SW.STATIC_CACHE (worker sys)
    ∧ SW.DYNAMIC_CACHE w' = SW.DYNAMIC_CACHE (worker sys).
Proof.
  intros Hpost Hnet Hbody.
  unfold fetchEvent, SW.onFetch, SW.handlePostRequest, SW.fetch,
    SW.text_after_fetch.
  rewrite Hpost, Hnet, Hbody. simpl. by eexists.
Qed.

Lemma failed_alert_post_rejected :
  fst (fetchEvent SW.no_network true 0 0%N sos_post first_system)
  = SW.RespondedRejection
  ∧ snd (fetchEvent SW.no_network true 0 0%N sos_post first_system)
    = System Offline.first_visit
        (SW.World "https://agriecho.example" ∅ ∅ [] [sos_post]).
Proof. split; reflexivity. Qed.

(** A request with another method is not intercepted: the worker neither
    answers it nor stores it. *)
Lemma other_methods_not_intercepted net dbOk now rnd rq sys :
  SW.method rq ≠ "GET" → SW.method rq ≠ "POST" →
  fetchEvent net dbOk now rnd rq sys = (SW.NotIntercepted, sys).
Proof.
  intros Hget Hpost. unfold fetchEvent, SW.onFetch.
  rewrite !bool_decide_eq_false_2 by done. by destruct sys.
Qed.

End AppFacts.

(** ** More properties of the sync queue *)

Module QueueFacts.
Import Offline.

(** *** saveSyncQueue *)

Lemma filter_twice {A} (P : A → Prop) `{!∀ x, Decision (P x)} (l : list A) :
  filter P (filter P l) = filter P l.
Proof.
  induction l as [|x l IH]; [done|].
  rewrite filter_cons. case_decide; [|done].
  rewrite filter_cons. rewrite decide_True by done. by rewrite IH.
Qed.

Lemma filter_agree {A} (P Q : A → Prop) `{!∀ x, Decision (P x)}
    `{!∀ x, Decision (Q x)} (l : list A) :
  (∀ x, x ∈ l → P x ↔ Q x) → filter P l = filter Q l.
Proof.
  induction l as [|x l IH]; intros Hl; [done|].
  rewrite !filter_cons.
  assert (P x ↔ Q x) as Hx by (apply Hl; left).
  rewrite IH by (intros y Hy; apply Hl; by right).
  repeat case_decide; tauto.
Qed.

Lemma omap_agree {A B} (f g : A → option B) (l : list A) :
  (∀ x, x ∈ l → f x = g x) → omap f l = omap g l.
Proof.
  induction l as [|x l IH]; intros H; [done|]. csimpl.
  rewrite (H x) by left. by rewrite IH by (intros y Hy; apply H; by right).
Qed.

Lemma keep_spec cutoff it :
  keep cutoff it = true ↔
    item_status it = "pending" ∨ item_status it = "failed"
    ∨ ∃ c, item_completedAt it = Some c ∧ c ≠ 0 ∧ cutoff < c.
Proof.
  unfold keep. rewrite !orb_true_iff, !bool_decide_eq_true.
  destruct (item_completedAt it) as [c|].
  - rewrite andb_true_iff, negb_true_iff, Z.eqb_neq, Z.ltb_lt.
    split; [intros [[?|?]|[? ?]]; eauto 6|].
    intros [?|[?|(c' & [= <-] & ? & ?)]]; auto.
  - split; [intros [[?|?]|?]; auto; done|].
    intros [?|[?|(c' & ? & _)]]; auto; done.
Qed.

(** [saveSyncQueue] keeps, in their order, the entries that are pending or
    failed or carry a [completedAt] (not 0) later than 24 hours before now,
    and drops all others; what it writes to [localStorage] is the queue it
    keeps; the objects and the two other keys are untouched. *)
Theorem saveSyncQueue_keeps st :
  (∀ r, r ∈ syncQueue (saveSyncQueue st) ↔
        r ∈ syncQueue st
        ∧ ∃ it, heap st !! r = Some it
                ∧ (item_status it = "pending" ∨ item_status it = "failed"
                   ∨ ∃ c, item_completedAt it = Some c ∧ c ≠ 0
                          ∧ now st - 86400000 < c))
  ∧ syncQueue (saveSyncQueue st) `sublist_of` syncQueue st
  ∧ ls_syncQueue (localStorage (saveSyncQueue st)) = entries (saveSyncQueue st)
  ∧ heap (saveSyncQueue st) = heap st
  ∧ ls_pendingSOSAlerts (localStorage (saveSyncQueue st))
    = ls_pendingSOSAlerts (localStorage st)
  ∧ ls_offlineVoiceQueries (localStorage (saveSyncQueue st))
    = ls_offlineVoiceQueries (localStorage st).
Proof.
  split; [|split; [apply sublist_filter|done]].
  intros r. simpl. rewrite list_elem_of_filter. unfold keep_ref.
  split.
  - intros [Hkeep Hr]. split; [done|].
    destruct (heap st !! r) as [it|]; [|done].
    exists it. split; [done|]. by apply keep_spec.
  - intros [Hr (it & Hit & Hkeep)]. split; [|done].
    rewrite Hit. by apply keep_spec.
Qed.

(** Saving twice in a row is saving once. *)
Theorem saveSyncQueue_idempotent st :
  saveSyncQueue (saveSyncQueue st) = saveSyncQueue st.
Proof.
  unfold saveSyncQueue at 1. simpl. unfold with_queue. simpl.
  rewrite filter_twice. reflexivity.
Qed.

(** *** Reloading the page *)

Lemma omap_lookup_seq {A} (pre l : list A) :
  omap (λ r, (pre ++ l) !! r) (seq (length pre) (length l)) = l.
Proof.
  revert pre. induction l as [|x l IH]; intros pre; [done|]. simpl.
  rewrite lookup_app_r by lia. rewrite Nat.sub_diag. simpl. f_equal.
  specialize (IH (pre ++ [x])). rewrite length_app in IH. simpl in IH.
  rewrite Nat.add_1_r in IH. by rewrite <- app_assoc in IH.
Qed.

Lemma constructor_entries onLine t ls :
  entries (constructor onLine t ls) = ls_syncQueue ls.
Proof.
  unfold entries, constructor, heap_of. simpl.
  rewrite (omap_agree _ (λ r, ls_syncQueue ls !! r))
    by (intros; apply lookup_map_seq_0).
  exact (omap_lookup_seq [] (ls_syncQueue ls)).
Qed.

(** A reload after [saveSyncQueue] restores the queue: the new page holds
    the saved items, each with its status and its retry count, in the same
    order.  The suspended calls and the retry timers of the old page are
    gone. *)
Theorem reload_restores_saved_queue st onLine :
  ∃ st',
    step (saveSyncQueue st) (Reload onLine) = Some st'
    ∧ entries st' = entries (saveSyncQueue st)
    ∧ tasks st' = [] ∧ timers st' = []
    ∧ isOnline st' = onLine.
Proof.
  eexists. split; [reflexivity|]. simpl.
  split; [|done].
  exact (constructor_entries onLine (now st) (localStorage (saveSyncQueue st))).
Qed.

(** *** removeFromLocalStorage *)

(** When an item has been delivered, the stored submissions that match it
    are removed and the others stay, in their order: for an item of type
    'sos-alert' the stored alerts with the [id] of its data, for an item of
    type 'voice-query' the stored queries with both the [query] and the
    [timestamp] of its data (all of them, whatever their number); for any
    other type nothing is removed.  The stored sync queue is not touched. *)
Theorem removeFromLocalStorage_removes_matches it ls :
  let ls' := removeFromLocalStorage it ls in
  ls_syncQueue ls' = ls_syncQueue ls
  ∧ (item_type it = "sos-alert" →
     ls_pendingSOSAlerts ls'
     = filter (λ alert, data_id alert ≠ data_id (item_data it))
         (ls_pendingSOSAlerts ls)
     ∧ ls_offlineVoiceQueries ls' = ls_offlineVoiceQueries ls)
  ∧ (item_type it = "voice-query" →
     ls_offlineVoiceQueries ls'
     = filter (λ query, ¬ (data_query query = data_query (item_data it)
                            ∧ data_timestamp query
                              = data_timestamp (item_data it)))
         (ls_offlineVoiceQueries ls)
     ∧ ls_pendingSOSAlerts ls' = ls_pendingSOSAlerts ls)
  ∧ (item_type it ≠ "sos-alert" → item_type it ≠ "voice-query" → ls' = ls).
Proof.
  assert (∀ (f : payload → bool) (P : payload → Prop)
            `{!∀ x, Decision (P x)} l,
            (∀ x, f x = true ↔ P x) → List.filter f l = filter P l) as Hfilter.
  { intros f P ? l Hf. induction l as [|x l IH]; [done|]. simpl.
    rewrite filter_cons, IH. destruct (f x) eqn:Hx; case_decide; try done.
    - by apply Hf in Hx.
    - rewrite <- Hf in *. congruence. }
  simpl. split; [apply OfflineFacts.removeFromLocalStorage_syncQueue|].
  unfold removeFromLocalStorage. split; [|split].
  - intros ->. simpl. split; [|done]. apply Hfilter.
    intros x. by rewrite negb_true_iff, bool_decide_eq_false.
  - intros ->. simpl. split; [|done]. apply Hfilter.
    intros x.
    rewrite negb_true_iff, andb_false_iff, !bool_decide_eq_false.
    split; [tauto|]. intros H.
    destruct (decide (data_query x = data_query (item_data it))); [|tauto].
    right. tauto.
  - intros H1 H2. by rewrite !bool_decide_eq_false_2.
Qed.


(** *** A new entry on an offline page *)

(** On a page that is offline, [addToSyncQueue] sends nothing and starts no
    drain; the new entry is the last of the queue, pending, with no retries;
    the queue is saved, so [localStorage] holds the new entry too. *)
Theorem addToSyncQueue_offline_is_stored st type data endpoint method rnd :
  reachable st → isOnline st = false →
  ∃ st',
    step st (Enqueue type data endpoint method rnd) = Some st'
    ∧ sent st' = sent st ∧ drains st' = drains st
    ∧ entries st' =
        entries (saveSyncQueue st) ++
          [QueueItem (now st, rnd) type data endpoint method (now st) 0
             "pending" None]
    ∧ ls_syncQueue (localStorage st') = entries st'.
Proof.
  intros Hreach Hoff.
  destruct (OfflineFacts.reachable_distinct_refs st Hreach) as [_ Hlt].
  simpl. unfold addToSyncQueue. simpl. rewrite Hoff.
  eexists. split; [reflexivity|]. split; [done|]. split; [done|].
  split; [|reflexivity].
  unfold entries. simpl.
  rewrite filter_app, omap_app.
  assert (∀ x, x ∈ syncQueue st →
            <[allocated st := QueueItem (now st, rnd) type data endpoint method
                                (now st) 0 "pending" None]> (heap st) !! x
            = heap st !! x) as Hold.
  { intros x Hx. apply lookup_insert_ne. apply Hlt in Hx. lia. }
  f_equal.
  - rewrite (filter_agree _
               (λ r, keep_ref (now st - 24 * 60 * 60 * 1000) (heap st) r = true)).
    + apply omap_agree. intros x Hx. apply Hold.
      by apply list_elem_of_filter in Hx as [_ Hx].
    + intros x Hx. unfold keep_ref. by rewrite Hold.
  - rewrite filter_cons. rewrite decide_True.
    + simpl. by rewrite lookup_insert_eq.
    + unfold keep_ref. by rewrite lookup_insert_eq.
Qed.

Lemma addToSyncQueue_offline_is_stored_witness :
  ∃ st',
    step first_visit (Enqueue "sos-alert" flood "/api/sos" "POST" 7%N) = Some st'
    ∧ ls_syncQueue (localStorage st') = [flood_item].
Proof.
  destruct (addToSyncQueue_offline_is_stored first_visit "sos-alert" flood
              "/api/sos" "POST" 7%N)
    as (st' & Hstep & _ & _ & Hentries & Hls).
  - exists false, 0, []. reflexivity.
  - reflexivity.
  - exists st'. split; [exact Hstep|]. rewrite Hls, Hentries. reflexivity.
Defined.

(** *** Offline pages do not use the network *)

Lemma idle_saveSyncQueue st : idle st → idle (saveSyncQueue st).
Proof. done. Qed.

(** On a page that is offline with no call suspended, nothing is sent and no
    drain is started until the page is notified that it is online (or is
    reloaded): new entries are only stored, the periodic sync and the manual
    sync return at once, and a retry timer that fires is used up without a
    request. *)
Theorem offline_page_sends_nothing st evs st' :
  isOnline st = false → idle st →
  forallb stays_offline evs = true → run st evs = Some st' →
  sent st' = sent st ∧ drains st' = drains st
  ∧ isOnline st' = false ∧ idle st'.
Proof.
  revert st. induction evs as [|ev evs IH]; simpl; intros st Hoff Hidle Hevs Hrun.
  - by simplify_eq.
  - apply andb_prop in Hevs as [Hev Hevs].
    destruct (step st ev) as [st1|] eqn:Hstep; simplify_eq/=.
    assert (sent st1 = sent st ∧ drains st1 = drains st
            ∧ isOnline st1 = false ∧ idle st1) as (Hs & Hd & Hoff1 & Hidle1).
    { destruct ev; try discriminate; simpl in Hstep;
        unfold handleOffline, addToSyncQueue, periodicSync, periodicCleanup,
          forcSync in Hstep; simpl in Hstep; rewrite ?Hoff in Hstep;
        simpl in Hstep; simplify_eq; try done.
      - destruct (0 <=? dt); by simplify_eq.
      - destruct (tasks st !! t) as [[tk|]|] eqn:Ht; try done.
        by apply (OfflineFacts.idle_lookup _ _ _ Hidle) in Ht.
      - destruct (tasks st !! t) as [[tk|]|] eqn:Ht; try done.
        by apply (OfflineFacts.idle_lookup _ _ _ Hidle) in Ht.
      - destruct (timers st !! k) as [[due r]|]; [|done].
        destruct (due <=? now st); [|done].
        unfold retryTimer in Hstep. simpl in Hstep. rewrite Hoff in Hstep.
        by simplify_eq. }
    destruct (IH st1 Hoff1 Hidle1 Hevs Hrun) as (? & ? & ? & ?).
    repeat split; [congruence|congruence|done|done].
Qed.

Lemma offline_page_sends_nothing_witness :
  ∃ st',
    run offline_with_timer offline_activity = Some st'
    ∧ sent st' = sent offline_with_timer
    ∧ timers st' = [].
Proof.
  destruct (run offline_with_timer offline_activity) as [st'|] eqn:Hrun;
    [|vm_compute in Hrun; discriminate Hrun].
  exists st'. split; [reflexivity|].
  destruct (offline_page_sends_nothing offline_with_timer offline_activity st')
    as (Hsent & _); [reflexivity|vm_compute; repeat constructor|reflexivity
                    |exact Hrun|].
  split; [exact Hsent|].
  vm_compute in Hrun. injection Hrun as <-. reflexivity.
Defined.

(** *** A drain that is running does not look at connectivity *)

(** [isOnline] is read when [processSyncQueue] starts, not in its loop: when
    the page goes offline while the drain waits for an answer and the answer
    is a failure, the drain still sends the next item of its snapshot. *)
Theorem running_drain_sends_while_offline st t cur next rest a it itn ev :
  tasks st !! t = Some (Some (Task cur (ByDrain (next :: rest)) a)) →
  heap st !! cur = Some it → heap st !! next = Some itn → cur ≠ next →
  throws a t ev →
  ∃ st',
    run st [Offline; ev] = Some st'
    ∧ isOnline st' = false
    ∧ sent st' = sent st ++ [request_of next itn].
Proof.
  intros Ht Hcur Hnext Hne Hev.
  assert (∃ st',
            syncItem_throws t (Task cur (ByDrain (next :: rest)) a)
              (with_isOnline false st) = Some st'
            ∧ isOnline st' = false
            ∧ sent st' = sent st ++ [request_of next itn])
    as (st' & Hthrows & Hoff & Hsent).
  { unfold syncItem_throws, processSyncQueue_catch. simpl. rewrite Hcur. simpl.
    unfold syncItem.
    case_bool_decide; simpl; rewrite lookup_insert_ne by done;
      rewrite Hnext; simpl; by eexists. }
  exists st'. split; [|done]. simpl. unfold handleOffline. simpl.
  destruct a; destruct Hev as [-> | ->]; simpl; rewrite Ht; simpl;
    by rewrite Hthrows.
Qed.

Lemma running_drain_sends_while_offline_witness :
  ∃ st',
    run two_alerts_in_flight [Offline; FetchSettles 0 FetchRejects] = Some st'
    ∧ length (sent st') = 2%nat.
Proof.
  destruct (running_drain_sends_while_offline two_alerts_in_flight 0%nat 0%nat
              1%nat [] AwaitFetch flood_item drought_item
              (FetchSettles 0 FetchRejects))
    as (st' & Hrun & _ & Hsent); [reflexivity|reflexivity|reflexivity|lia
                                 |by left|].
  exists st'. split; [exact Hrun|]. rewrite Hsent. reflexivity.
Defined.


(** *** A drain whose requests all succeed *)

Lemma requests_of_cons h r it items :
  h !! r = Some it →
  requests_of h (r :: items) = request_of r it :: requests_of h items.
Proof. intros Hr. unfold requests_of. csimpl. by rewrite Hr. Qed.

Lemma loop_all_succeed items :
  ∀ s,
    idle s → NoDup items → (∀ r, r ∈ items → is_Some (heap s !! r)) →
    ∃ s0 s',
      (s1 ← processSyncQueue_loop items s;
       run s1 (all_succeed (length (tasks s)) (length items))) = Some s'
      ∧ s' = saveSyncQueue s0 ∧ syncQueue s0 = syncQueue s
      ∧ idle s'
      ∧ sent s' = sent s ++ requests_of (heap s) items
      ∧ (∀ r, r ∈ items → status_of (heap s') r = Some "completed")
      ∧ (∀ r, r ∉ items → heap s' !! r = heap s !! r).
Proof.
  induction items as [|x rest IH]; intros s Hidle Hnd Hheap.
  - exists s, (saveSyncQueue s). simpl.
    repeat split; [done|by rewrite app_nil_r|by intros r ?%elem_of_nil].
  - apply NoDup_cons in Hnd as [Hx Hnd].
    destruct (Hheap x) as [itx Hitx]; [left|].
    set (done_x := set_completedAt (now s) (set_status "completed" itx)).
    set (s3 :=
           with_localStorage (removeFromLocalStorage done_x (localStorage s))
             (with_heap (<[x := done_x]> (heap s))
                (with_tasks (tasks s ++ [None])
                   (with_sent (sent s ++ [request_of x itx]) s)))).
    destruct (IH s3) as (s0 & s' & Hrun & Hs' & Hq & Hidle' & Hsent & Hdone & Hkept).
    { unfold idle. simpl. apply Forall_app. split; [done|]. by repeat constructor. }
    { done. }
    { intros r Hr. simpl. rewrite lookup_insert_ne by (by intros ->).
      apply Hheap. by right. }
    exists s0, s'. split; [|split; [done|split; [done|split; [done|]]]].
    + simpl. unfold syncItem. rewrite Hitx. simpl.
      rewrite list_lookup_middle by done. simpl.
      rewrite OfflineFacts.insert_running.
      rewrite list_lookup_middle by done. simpl.
      unfold syncItem_succeeds. simpl. rewrite Hitx. simpl.
      rewrite OfflineFacts.insert_running.
      replace (S (length (tasks s))) with (length (tasks s3))
        by (unfold s3; simpl; rewrite length_app; simpl; lia).
      exact Hrun.
    + split; [|split].
      * rewrite (requests_of_cons _ _ _ _ Hitx), Hsent.
        change (sent s3) with (sent s ++ [request_of x itx]).
        change (heap s3) with (<[x := done_x]> (heap s)).
        rewrite <- app_assoc. simpl. do 2 f_equal.
        apply omap_agree. intros r Hr.
        rewrite lookup_insert_ne; [done|]. by intros ->.
      * intros r [->|Hr]%elem_of_cons; [|by apply Hdone].
        unfold status_of. rewrite Hkept by done. simpl.
        by rewrite lookup_insert_eq.
      * intros r [Hrx Hr]%not_elem_of_cons. rewrite Hkept by done. simpl.
        by rewrite lookup_insert_ne.
Qed.


(** When every request of a drain is answered with success, the drain sends
    one request for each pending entry, in the order of the queue, and
    nothing else; every entry that was pending is completed, no entry of the
    queue is pending afterwards, and the queue has been saved. *)
Theorem successful_drain_delivers_in_order st :
  wf st → NoDup (syncQueue st) → idle st → isOnline st = true →
  syncQueue st ≠ [] →
  ∃ st',
    drain st (all_succeed (length (tasks st)) (length (pendingItems st)))
    = Some st'
    ∧ idle st'
    ∧ sent st' = sent st ++ requests_of (heap st) (pendingItems st)
    ∧ (∀ r, r ∈ pendingItems st → status_of (heap st') r = Some "completed")
    ∧ pendingItems st' = []
    ∧ ls_syncQueue (localStorage st') = entries st'.
Proof.
  intros Hwf Hnd Hidle Hon Hq.
  destruct (loop_all_succeed (pendingItems st) (with_drains (S (drains st)) st))
    as (s0 & st' & Hrun & Hs' & Hq0 & Hidle' & Hsent & Hdone & Hkept).
  { done. }
  { by apply NoDup_filter. }
  { intros r [_ Hr]%list_elem_of_filter. by apply (wf_queue _ Hwf). }
  exists st'. split; [|split; [done|split; [done|split; [done|split]]]].
  - unfold drain, processSyncQueue. simpl. rewrite Hon. simpl.
    rewrite bool_decide_eq_false_2 by done. exact Hrun.
  - destruct (pendingItems st') as [|y l] eqn:Hp; [done|]. exfalso.
    assert (y ∈ pendingItems st') as Hy by (rewrite Hp; left).
    apply list_elem_of_filter in Hy as [Hst Hy].
    assert (y ∈ syncQueue st) as Hyq.
    { rewrite Hs' in Hy. simpl in Hy.
      apply list_elem_of_filter in Hy as [_ Hy]. by rewrite Hq0 in Hy. }
    destruct (decide (y ∈ pendingItems st)) as [Hin|Hout].
    + rewrite (Hdone y Hin) in Hst. discriminate Hst.
    + apply Hout. apply list_elem_of_filter. split; [|done].
      pose proof (Hkept y Hout) as Hk. simpl in Hk.
      unfold status_of in *. by rewrite <- Hk.
  - by rewrite Hs'.
Qed.

Lemma successful_drain_delivers_in_order_witness :
  ∃ st',
    drain online_with_two_alerts (all_succeed 0 2) = Some st'
    ∧ sent st' = [Request 0%nat "/api/sos" "POST" flood;
                  Request 1%nat "/api/sos" "POST" drought]
    ∧ ls_pendingSOSAlerts (localStorage st') = [].
Proof.
  destruct (successful_drain_delivers_in_order online_with_two_alerts)
    as (st' & Hrun & _ & Hsent & _).
  - apply OfflineFacts.constructor_wf. repeat constructor.
  - apply NoDup_seq.
  - constructor.
  - reflexivity.
  - discriminate.
  - exists st'. split; [exact Hrun|]. split; [exact Hsent|].
    vm_compute in Hrun. injection Hrun as <-. reflexivity.
Defined.

(** *** Settled entries stay settled *)

Lemma ages_same st st' :
  heap st' = heap st → allocated st' = allocated st → ages st st'.
Proof.
  intros Hh Ha. split; [lia|]. intros r it _ Hr. exists it.
  rewrite Hh. split; [done|]. split; [done|lia].
Qed.

Lemma ages_trans st1 st2 st3 : ages st1 st2 → ages st2 st3 → ages st1 st3.
Proof.
  intros [Ha1 H1] [Ha2 H2]. split; [lia|].
  intros r it Hr Hit. destruct (H1 r it Hr Hit) as (it2 & Hit2 & Hs2 & Hr2).
  destruct (H2 r it2) as (it3 & Hit3 & Hs3 & Hr3); [lia|done|].
  exists it3. split; [done|]. split; [auto|lia].
Qed.

Lemma ages_update st r it it' :
  heap st !! r = Some it → (settled it → settled it') →
  item_retries it ≤ item_retries it' →
  ages st (with_heap (<[r := it']> (heap st)) st).
Proof.
  intros Hr Hs Hle. split; [done|]. intros x itx _ Hx. simpl.
  destruct (decide (r = x)) as [->|Hne].
  - pose proof (eq_trans (eq_sym Hx) Hr) as [= ->].
    exists it'. rewrite lookup_insert_eq. split; [done|]. split; [done|lia].
  - exists itx. rewrite lookup_insert_ne by done.
    split; [done|]. split; [done|lia].
Qed.

Lemma syncItem_ages r k st st' : syncItem r k st = Some st' → ages st st'.
Proof.
  unfold syncItem. intros H. destruct (heap st !! r); simplify_eq/=.
  by apply ages_same.
Qed.

Lemma processSyncQueue_loop_ages items st st' :
  processSyncQueue_loop items st = Some st' → ages st st'.
Proof.
  destruct items; simpl; intros H; [simplify_eq; by apply ages_same|].
  by eapply syncItem_ages.
Qed.

Lemma processSyncQueue_ages st st' :
  processSyncQueue st = Some st' → ages st st'.
Proof.
  unfold processSyncQueue. intros H.
  destruct (_ || _); [simplify_eq; by apply ages_same|].
  apply processSyncQueue_loop_ages in H.
  eapply ages_trans; [|exact H]. by apply ages_same.
Qed.

Lemma syncItem_throws_ages t tk st st' :
  syncItem_throws t tk st = Some st' → ages st st'.
Proof.
  unfold syncItem_throws, processSyncQueue_catch. intros H.
  destruct (t_caller tk); [|simplify_eq; by apply ages_same].
  simpl in H. destruct (heap st !! t_item tk) as [it|] eqn:Hit; simplify_eq/=.
  apply processSyncQueue_loop_ages in H.
  eapply ages_trans; [|exact H]. clear H.
  case_bool_decide.
  - eapply ages_trans;
      [apply (ages_update st (t_item tk) it
                (set_status "failed" (set_retries (item_retries it + 1) it)));
       [done|done|simpl; lia]|].
    by apply ages_same.
  - eapply ages_trans;
      [apply (ages_update st (t_item tk) it
                (set_retries (item_retries it + 1) it));
       [done|done|simpl; lia]|].
    by apply ages_same.
Qed.

Lemma syncItem_succeeds_ages t tk st st' :
  syncItem_succeeds t tk st = Some st' → ages st st'.
Proof.
  unfold syncItem_succeeds. intros H.
  destruct (heap st !! t_item tk) as [it|] eqn:Hit; simplify_eq/=.
  assert (ages st
            (with_localStorage
               (removeFromLocalStorage
                  (set_completedAt (now st) (set_status "completed" it))
                  (localStorage st))
               (with_heap
                  (<[t_item tk :=
                       set_completedAt (now st) (set_status "completed" it)]>
                     (heap st))
                  (with_tasks (<[t := None]> (tasks st)) st)))) as Hages.
  { eapply ages_trans;
      [apply (ages_update st (t_item tk) it
                (set_completedAt (now st) (set_status "completed" it)));
       [done|done|simpl; lia]|].
    by apply ages_same. }
  destruct (t_caller tk); [|by simplify_eq].
  apply processSyncQueue_loop_ages in H. by eapply ages_trans.
Qed.

Lemma step_ages st ev st' :
  no_reload ev = true → step st ev = Some st' → ages st st'.
Proof.
  destruct ev; try discriminate; intros _; simpl; intros H;
    unfold handleOnline, handleOffline, periodicSync, periodicCleanup,
      forcSync, retryTimer in H.
  - apply processSyncQueue_ages in H.
    eapply ages_trans; [|exact H]. by apply ages_same.
  - simplify_eq. by apply ages_same.
  - unfold addToSyncQueue in H.
    match type of H with
    | context [saveSyncQueue ?s0] => assert (ages st (saveSyncQueue s0)) as Hnew
    end.
    { split; [simpl; lia|]. intros r it Hr Hit. exists it. simpl.
      rewrite lookup_insert_ne by lia. split; [done|]. split; [done|lia]. }
    destruct (isOnline _); [|by simplify_eq].
    apply processSyncQueue_ages in H. by eapply ages_trans.
  - destruct (_ && _); [by apply processSyncQueue_ages|].
    simplify_eq. by apply ages_same.
  - simplify_eq. by apply ages_same.
  - destruct (negb _); [simplify_eq; by apply ages_same|].
    by apply processSyncQueue_ages.
  - destruct (0 <=? dt); simplify_eq. by apply ages_same.
  - destruct (tasks st !! t) as [[tk|]|]; try done.
    destruct (t_await tk); [|done].
    destruct res as [|[]]; simplify_eq;
      [by eapply syncItem_throws_ages|by apply ages_same
      |by eapply syncItem_throws_ages].
  - destruct (tasks st !! t) as [[tk|]|]; try done.
    destruct (t_await tk); [done|].
    destruct res as [|[]]; simplify_eq;
      [by eapply syncItem_throws_ages|by eapply syncItem_succeeds_ages
      |by eapply syncItem_throws_ages].
  - destruct (timers st !! k) as [[due r]|]; [|done].
    destruct (due <=? now st); [|done]. simpl in H.
    destruct (isOnline st); [|simplify_eq; by apply ages_same].
    apply syncItem_ages in H. eapply ages_trans; [|exact H].
    by apply ages_same.
  - simplify_eq. by apply ages_same.
Qed.

Lemma run_ages evs st st' :
  forallb no_reload evs = true → run st evs = Some st' → ages st st'.
Proof.
  revert st. induction evs as [|ev evs IH]; simpl; intros st Hevs H.
  - simplify_eq. by apply ages_same.
  - apply andb_prop in Hevs as [Hev Hevs].
    destruct (step st ev) as [st1|] eqn:Hstep; simplify_eq/=.
    eapply ages_trans; [by eapply step_ages|by apply IH].
Qed.

(** As long as the page is not reloaded, an entry of the queue that is
    completed or failed is never pending again, whatever happens on the
    page, and its retry counter never goes down. *)
Theorem settled_entry_stays_settled st evs st' r it :
  reachable st → r ∈ syncQueue st → heap st !! r = Some it →
  item_status it ≠ "pending" →
  forallb no_reload evs = true → run st evs = Some st' →
  ∃ it',
    heap st' !! r = Some it'
    ∧ item_status it' ≠ "pending"
    ∧ item_retries it ≤ item_retries it'.
Proof.
  intros Hreach Hr Hit Hsettled Hevs Hrun.
  destruct (OfflineFacts.reachable_distinct_refs st Hreach) as [_ Hlt].
  destruct (run_ages _ _ _ Hevs Hrun) as [_ Hages].
  destruct (Hages r it (Hlt r Hr) Hit) as (it' & Hit' & Hs & Hle).
  exists it'. split; [done|]. split; [by apply Hs|done].
Qed.


Lemma settled_entry_stays_settled_witness :
  ∃ st' it',
    run alert_completed late_retry = Some st'
    ∧ heap st' !! 0%nat = Some it'
    ∧ item_status it' ≠ "pending".
Proof.
  destruct (run alert_completed late_retry) as [st'|] eqn:Hrun;
    [|vm_compute in Hrun; discriminate Hrun].
  destruct (settled_entry_stays_settled alert_completed late_retry st' 0%nat
              (set_completedAt 1000 (set_status "completed"
                                       (set_retries 1 flood_item))))
    as (it' & Hit' & Hsettled & _).
  - exists false, 0, completed_before_retry. vm_compute. reflexivity.
  - vm_compute. left.
  - vm_compute. reflexivity.
  - discriminate.
  - reflexivity.
  - exact Hrun.
  - exists st', it'. split; [reflexivity|]. split; [exact Hit'|exact Hsettled].
Defined.

End QueueFacts.

(** ** Properties of initializeOfflineStores *)

Module StoresFacts.
Import Stores.

Lemma lookup_initializeStore ls store k :
  initializeStore ls store !! k =
    if decide (k = store) then
      if missing (ls !! k) then Some "[]" else ls !! k
    else ls !! k.
Proof.
  unfold initializeStore. case_decide as Hk.
  - subst k. destruct (missing (ls !! store)); [|done].
    by rewrite lookup_insert_eq.
  - destruct (missing (ls !! store)); [|done]. by rewrite lookup_insert_ne.
Qed.

Lemma lookup_initializeStores keys :
  ∀ ls k,
    initializeStores keys ls !! k =
      if decide (k ∈ keys) then
        if missing (ls !! k) then Some "[]" else ls !! k
      else ls !! k.
Proof.
  induction keys as [|x keys IH]; intros ls k; simpl.
  - done.
  - unfold initializeStores in *. simpl. rewrite IH.
    rewrite lookup_initializeStore.
    destruct (decide (k = x)) as [->|Hne].
    + rewrite (decide_True (P := x ∈ x :: keys)) by left.
      destruct (missing (ls !! x)) eqn:Hm; simpl.
      * by destruct (decide (x ∈ keys)).
      * rewrite Hm. by destruct (decide (x ∈ keys)).
    + destruct (decide (k ∈ keys)) as [Hin|Hout].
      * by rewrite decide_True by (by right).
      * rewrite decide_False; [done|]. by intros [?|?]%elem_of_cons.
Qed.

(** [initializeOfflineStores] writes '[]' under each of its six keys that is
    absent or holds the empty string, and changes nothing else: a key that
    holds a value keeps it, and other keys are not touched.  Afterwards none
    of the six keys is missing, and running it again changes nothing. *)
Theorem initializeOfflineStores_fills_missing_keys ls k :
  initializeOfflineStores ls !! k =
    (if decide (k ∈ stores) then
       if missing (ls !! k) then Some "[]" else ls !! k
     else ls !! k)
  ∧ (k ∈ stores → missing (initializeOfflineStores ls !! k) = false)
  ∧ initializeOfflineStores (initializeOfflineStores ls)
    = initializeOfflineStores ls.
Proof.
  assert (∀ m k', k' ∈ stores → missing (initializeOfflineStores m !! k') = false)
    as Hpresent.
  { intros m k' Hk'. unfold initializeOfflineStores.
    rewrite lookup_initializeStores, decide_True by done.
    by destruct (missing (m !! k')) eqn:Hm. }
  split; [apply lookup_initializeStores|]. split; [apply Hpresent|].
  apply map_eq. intros j. unfold initializeOfflineStores at 1.
  rewrite lookup_initializeStores.
  case_decide as Hj; [|done]. by rewrite Hpresent.
Qed.

(** A stored weather record is kept, the empty preferences key is filled. *)
Lemma initializeOfflineStores_example :
  initializeOfflineStores some_storage !! "cachedWeatherData" = Some "{}"
  ∧ initializeOfflineStores some_storage !! "offlineUserPreferences" = Some "[]"
  ∧ initializeOfflineStores some_storage !! "syncQueue" = Some "[]".
Proof. repeat split; vm_compute; reflexivity. Qed.

End StoresFacts.

(** ** Properties of the article manager *)

Module ArticlesFacts.
Import Articles.

(** The list that [saveArticle] writes. *)
Lemma find_saved id a' (articles : list article) :
  find id
    (match findIndex (art_id a') articles with
     | Some i => <[i := a']> articles
     | None => articles ++ [a']
     end)
  = if decide (id = art_id a') then Some a' else find id articles.
Proof.
  induction articles as [|b l IH]; simpl.
  - case_bool_decide; case_decide; congruence.
  - case_bool_decide as Hb; simpl.
    + case_bool_decide; case_decide; try congruence.
      rewrite bool_decide_eq_false_2 by congruence. done.
    + destruct (findIndex (art_id a') l) as [i|]; simpl in *;
        (case_bool_decide; [rewrite decide_False by congruence; done|]);
        exact IH.
Qed.

Lemma ids_saved a' (articles : list article) :
  art_id <$>
    (match findIndex (art_id a') articles with
     | Some i => <[i := a']> articles
     | None => articles ++ [a']
     end)
  = if decide (art_id a' ∈ art_id <$> articles) then art_id <$> articles
    else (art_id <$> articles) ++ [art_id a'].
Proof.
  induction articles as [|b l IH].
  - done.
  - csimpl. case_bool_decide as Hb; csimpl.
    + rewrite decide_True by (rewrite Hb; left). by rewrite Hb.
    + destruct (findIndex (art_id a') l) as [i|]; csimpl in *; rewrite IH;
        destruct (decide (art_id a' ∈ art_id <$> l)) as [Hin|Hout].
      * by rewrite decide_True by (by right).
      * rewrite decide_False; [done|]. intros [?|?]%elem_of_cons; congruence.
      * by rewrite decide_True by (by right).
      * rewrite decide_False; [done|]. intros [?|?]%elem_of_cons; congruence.
Qed.

Lemma isArticleSaved_find id s :
  isArticleSaved id s = true ↔ is_Some (getArticle id s).
Proof.
  unfold isArticleSaved, getArticle.
  induction (getArticles s) as [|b l IH]; simpl.
  - split; [done|]. by intros [? ?].
  - case_bool_decide; simpl; [|done]. split; eauto.
Qed.

(** After [saveArticle(article)], [getArticle] gives this article for its
    id, with [savedAt] set to the time of saving, and [isArticleSaved] is
    true for it; for every other id [getArticle] gives what it gave before,
    whether the key was absent, empty or filled. *)
Theorem saveArticle_then_getArticle now a s id :
  getArticle id (saveArticle now a s) =
    (if decide (id = art_id a) then Some (Article (art_id a) (Some now) (art_rest a))
     else getArticle id s)
  ∧ isArticleSaved (art_id a) (saveArticle now a s) = true.
Proof.
  assert (∀ j, getArticle j (saveArticle now a s) =
               if decide (j = art_id a) then Some (stamped now a)
               else getArticle j s) as Hget'.
  { intros j. unfold getArticle, saveArticle. simpl.
    exact (find_saved j (stamped now a) (getArticles s)). }
  split; [exact (Hget' id)|].
  apply isArticleSaved_find. rewrite Hget'. by rewrite decide_True.
Qed.

(** [saveArticle] never stores a second article under an id: an article
    whose id is stored replaces the stored one at its place, another one is
    added at the end.  So distinct ids stay distinct. *)
Theorem saveArticle_keeps_ids_distinct now a s :
  ids (saveArticle now a s) =
    (if decide (art_id a ∈ ids s) then ids s else ids s ++ [art_id a])
  ∧ (NoDup (ids s) → NoDup (ids (saveArticle now a s))).
Proof.
  assert (ids (saveArticle now a s) =
            if decide (art_id a ∈ ids s) then ids s else ids s ++ [art_id a])
    as Hids.
  { unfold ids, saveArticle. simpl.
    exact (ids_saved (stamped now a) (getArticles s)). }
  split; [exact Hids|]. intros Hnd. rewrite Hids.
  case_decide as Hin; [done|].
  apply NoDup_app. split; [done|]. split; [|apply NoDup_singleton].
  by intros x Hx ->%list_elem_of_singleton.
Qed.

Lemma find_filter_ne id id' (l : list article) :
  find id' (filter (λ a, art_id a ≠ id) l) =
    if decide (id' = id) then None else find id' l.
Proof.
  induction l as [|b l IH]; simpl; [by case_decide|].
  rewrite filter_cons. destruct (decide (art_id b ≠ id)) as [Hb|Hb]; simpl.
  - case_bool_decide; [by rewrite decide_False by congruence|]. exact IH.
  - rewrite IH. case_decide; [done|].
    rewrite bool_decide_eq_false_2; [done|].
    destruct (decide (art_id b = id)); [congruence|by destruct Hb].
Qed.

(** After [removeArticle(id)] no article is stored under [id], however many
    there were, and every other id gives the article it gave before. *)
Theorem removeArticle_then_getArticle id s id' :
  getArticle id' (removeArticle id s) =
    (if decide (id' = id) then None else getArticle id' s)
  ∧ isArticleSaved id (removeArticle id s) = false.
Proof.
  assert (∀ j, getArticle j (removeArticle id s) =
               if decide (j = id) then None else getArticle j s) as Hget.
  { intros j. unfold getArticle, removeArticle. simpl. apply find_filter_ne. }
  split; [apply Hget|].
  destruct (isArticleSaved id (removeArticle id s)) eqn:Hsaved; [|done].
  apply isArticleSaved_find in Hsaved as [x Hx].
  rewrite Hget, decide_True in Hx by done. discriminate Hx.
Qed.

(** Saving an article whose id is not stored and removing it again gives
    back the stored list (the key then holds the list even if it was absent
    before); [clearAll] leaves no article. *)
Theorem saveArticle_then_removeArticle now a s :
  art_id a ∉ ids s →
  removeArticle (art_id a) (saveArticle now a s) = Some (getArticles s)
  ∧ getArticles (clearAll (saveArticle now a s)) = [].
Proof.
  intros Hnew. split; [|done].
  unfold removeArticle, saveArticle, ids in *. simpl. f_equal.
  assert (findIndex (art_id a) (getArticles s) = None) as ->.
  { induction (getArticles s) as [|b l IH]; [done|]. simpl in *.
    apply not_elem_of_cons in Hnew as [Hb Hl].
    rewrite bool_decide_eq_false_2 by congruence. by rewrite IH. }
  rewrite filter_app, filter_cons, decide_False by (simpl; tauto).
  rewrite filter_nil, app_nil_r.
  induction (getArticles s) as [|b l IH]; [done|]. simpl in *.
  apply not_elem_of_cons in Hnew as [Hb Hl].
  rewrite filter_cons, decide_True by congruence. by rewrite IH.
Qed.

Lemma saveArticle_then_removeArticle_witness :
  removeArticle 2 (saveArticle 50 crops (Some [soil])) = Some [soil].
Proof.
  destruct (saveArticle_then_removeArticle 50 crops (Some [soil])) as [H _].
  - vm_compute. intros [H|H]%elem_of_cons; [discriminate H|].
    by apply elem_of_nil in H.
  - exact H.
Defined.

End ArticlesFacts.

(** ** More properties of the weather cache *)

Module WeatherMore.
Import Weather.

(** A record written by [cacheWeatherData] at [t] is read back by
    [getCachedWeatherData] until [maxAge] has passed, with [cachedAt = t] and
    the fields of the data, whatever [cachedAt] the data carried and whatever
    was stored before; later reads give [null] and remove it. *)
Theorem cacheWeatherData_then_getCachedWeatherData t now d c :
  getCachedWeatherData now (cacheWeatherData t d c) =
    (if bool_decide (now ≤ t + maxAge)
     then (Some (WeatherData (Some t) (fields d)),
           Some (WeatherData (Some t) (fields d)))
     else (None, None)).
Proof.
  unfold getCachedWeatherData, cacheWeatherData. simpl.
  case_bool_decide.
  - by rewrite (proj2 (Z.ltb_ge _ _)) by lia.
  - by rewrite (proj2 (Z.ltb_lt _ _)) by lia.
Qed.

(** [isCacheValid] is true exactly when a record is stored that is not older
    than [maxAge] (a stored value without [cachedAt] counts as valid).  It
    is not a plain check: when it answers false, the key is absent
    afterwards, so asking about a stale record removes it. *)
Theorem isCacheValid_evicts now c :
  (fst (isCacheValid now c) = true ↔
     ∃ d, c = Some d ∧ ∀ t, cachedAt d = Some t → now - t ≤ maxAge)
  ∧ (fst (isCacheValid now c) = true → snd (isCacheValid now c) = c)
  ∧ (fst (isCacheValid now c) = false → snd (isCacheValid now c) = None).
Proof.
  unfold isCacheValid, getCachedWeatherData.
  destruct c as [[[t|] f]|]; simpl.
  - destruct (maxAge <? now - t) eqn:Hage; simpl.
    + apply Z.ltb_lt in Hage. split; [|done]. split; [done|].
      intros (d & [= <-] & Hd). specialize (Hd t eq_refl). lia.
    + apply Z.ltb_ge in Hage. split; [|done]. split; [|done].
      intros _. eexists. split; [done|]. intros t' [= <-]. done.
  - split; [|done]. split; [|done]. intros _. eexists. split; [done|]. done.
  - split; [|done]. split; [done|]. by intros (d & ? & _).
Qed.

End WeatherMore.

(** ** More properties of the service worker *)

Module SWMore.
Import SW.

(** A static file that was fetched once is served without the network: when
    the first request misses the caches and the network answers [ok], the
    same request is afterwards answered with that response from the cache,
    whatever the network does then, and without a fetch. *)
Theorem static_file_served_from_cache_after_first_fetch
    net net' dbOk now rnd rq w r :
  method rq = "GET" → isStaticFile rq = true →
  caches_match w (url rq) = None → net rq = Some r → ok r = true →
  ∃ w1,
    onFetch net dbOk now rnd rq w = (Responded r, w1)
    ∧ onFetch net' dbOk now rnd rq w1 = (Responded r, w1)
    ∧ fetched w1 = fetched w ++ [rq].
Proof.
  intros Hget Hstatic Hmiss Hnet Hok.
  unfold onFetch, handleStaticFile, fetch.
  rewrite bool_decide_eq_true_2 by done. rewrite Hstatic, Hmiss, Hnet, Hok.
  eexists. split; [reflexivity|]. split; [|reflexivity].
  unfold caches_match, put_static. simpl. by rewrite lookup_insert_eq.
Qed.

Lemma static_file_served_from_cache_after_first_fetch_witness :
  ∃ w1,
    onFetch css_network true 0 0%N css_request emptyWorld
    = (Responded css_response, w1)
    ∧ onFetch no_network true 0 0%N css_request w1
      = (Responded css_response, w1).
Proof.
  destruct (static_file_served_from_cache_after_first_fetch css_network
              no_network true 0 0%N css_request emptyWorld css_response)
    as (w1 & H1 & H2 & _); try reflexivity.
  exists w1. split; [exact H1|exact H2].
Defined.

(** Whatever the request, the listener makes at most one fetch, of the
    request itself; a cache gains at most one entry, for the URL of a GET
    request, and it is the response of the network and is [ok]; a record is
    added to [failedRequests] only for a POST request without a body whose
    fetch rejected. *)
Theorem onFetch_frame net dbOk now rnd rq w :
  let w' := snd (onFetch net dbOk now rnd rq w) in
  (fetched w' = fetched w ∨ fetched w' = fetched w ++ [rq])
  ∧ (∀ k r, STATIC_CACHE w' !! k = Some r →
       STATIC_CACHE w !! k = Some r
       ∨ (k = url rq ∧ method rq = "GET" ∧ net rq = Some r ∧ ok r = true))
  ∧ (∀ k r, DYNAMIC_CACHE w' !! k = Some r →
       DYNAMIC_CACHE w !! k = Some r
       ∨ (k = url rq ∧ method rq = "GET" ∧ net rq = Some r ∧ ok r = true))
  ∧ (failedRequests w' = failedRequests w
     ∨ (method rq = "POST" ∧ net rq = None ∧ dbOk = true
        ∧ req_body rq = None))
  ∧ origin w' = origin w.
Proof.
  assert (∀ (m : gmap string response) x k r,
            net rq = Some x → ok x = true → method rq = "GET" →
            <[url rq := x]> m !! k = Some r →
            m !! k = Some r
            ∨ (k = url rq ∧ method rq = "GET" ∧ net rq = Some r ∧ ok r = true))
    as Hput.
  { intros m x k r Hx Hok Hget. rewrite lookup_insert.
    case_decide; [|by left]. intros [= <-]. right. by subst k. }
  simpl. unfold onFetch.
  case_bool_decide as Hget.
  - destruct (isStaticFile rq).
    { unfold handleStaticFile, fetch.
      destruct (caches_match w (url rq)); simpl; [by auto 10|].
      destruct (net rq) as [x|] eqn:Hnet; simpl; [|by auto 10].
      destruct (ok x) eqn:Hok; simpl; [|by auto 10].
      split; [by right|]. split; [by eauto|]. by auto. }
    destruct (isAPIRequest rq).
    { unfold handleAPIRequest, fetch.
      destruct (net rq) as [x|] eqn:Hnet; simpl.
      - destruct (ok x) eqn:Hok; simpl; [|by auto 10].
        split; [by right|]. split; [by auto|]. split; [by eauto|]. by auto.
      - unfold caches_match. simpl.
        destruct (STATIC_CACHE w !! url rq); simpl; [by auto 10|].
        destruct (DYNAMIC_CACHE w !! url rq); simpl; by auto 10. }
    destruct (isPageRequest rq).
    { unfold handlePageRequest, fetch.
      destruct (net rq) as [x|] eqn:Hnet; simpl.
      - destruct (ok x) eqn:Hok; simpl; [|by auto 10].
        split; [by right|]. split; [by auto|]. split; [by eauto|]. by auto.
      - unfold caches_match, home. simpl.
        destruct (STATIC_CACHE w !! url rq); simpl; [by auto 10|].
        destruct (DYNAMIC_CACHE w !! url rq); simpl; [by auto 10|].
        destruct (STATIC_CACHE w !! (origin w +:+ "/")); simpl; [by auto 10|].
        destruct (DYNAMIC_CACHE w !! (origin w +:+ "/")); simpl; by auto 10. }
    unfold handleOtherRequest, fetch.
    destruct (net rq); simpl; by auto 10.
  - case_bool_decide as Hpost; simpl; [|by auto 10].
    unfold handlePostRequest, fetch, storeFailedRequest, text_after_fetch.
    destruct (net rq) eqn:Hnet; simpl; [by auto 10|].
    destruct (req_body rq) eqn:Hbody; simpl; [by auto 10|].
    destruct dbOk; simpl; by auto 10.
Qed.

(** The home page is what a worker without network falls back to, once it
    has been visited.  A page request is a GET request that is not for a
    static file, not under /api/, and accepts text/html.  When the request
    of the page at ['/'] has been answered by the network with an [ok]
    response, a later page request whose fetch rejects and for which the
    caches hold nothing is answered with a home page: the one of the static
    cache if it holds one, else the response of that visit.  Before the
    visit, with no home page in a cache, the same request is answered with
    nothing at all: [caches.match('/')] is a promise and so truthy,
    [respondWith] is given [undefined], and the 'Offline' response with
    status 503 that the last line names is never built. *)
Theorem visited_home_page_is_offline_fallback
    net net' dbOk now rnd h rq w r :
  method h = "GET" → isStaticFile h = false → isAPIRequest h = false →
  isPageRequest h = true → url h = home w →
  net h = Some r → ok r = true →
  method rq = "GET" → isStaticFile rq = false → isAPIRequest rq = false →
  isPageRequest rq = true → net' rq = None → caches_match w (url rq) = None →
  ∃ w1 w2,
    onFetch net dbOk now rnd h w = (Responded r, w1)
    ∧ onFetch net' dbOk now rnd rq w1
      = (Responded (default r (STATIC_CACHE w !! home w)), w2)
    ∧ fetched w2 = fetched w ++ [h; rq]
    ∧ (caches_match w (home w) = None →
       fst (onFetch net' dbOk now rnd rq w) = RespondedUndefined).
Proof.
  intros Hget Hstatic Hapi Hpage Hurl Hnet Hok
    Hget' Hstatic' Hapi' Hpage' Hnet' Hmiss.
  unfold onFetch, handlePageRequest, fetch.
  rewrite !bool_decide_eq_true_2 by done.
  rewrite Hstatic, Hapi, Hpage, Hnet, Hok, Hstatic', Hapi', Hpage', Hnet'.
  unfold caches_match in *. unfold home in *. simpl. rewrite Hurl.
  destruct (STATIC_CACHE w !! url rq) as [c|] eqn:Hs; [done|].
  eexists _, (World (origin w) (STATIC_CACHE w)
                (<[origin w +:+ "/" := r]> (DYNAMIC_CACHE w))
                (failedRequests w) ((fetched w ++ [h]) ++ [rq])).
  split; [reflexivity|]. simpl. rewrite Hs.
  split; [|split; [by rewrite <- (assoc_L (++))|]].
  - destruct (decide (url rq = origin w +:+ "/")) as [Heq|Hne].
    + rewrite <- Heq, Hs. simpl. by rewrite lookup_insert_eq.
    + rewrite lookup_insert_ne by done. rewrite Hmiss.
      destruct (STATIC_CACHE w !! (origin w +:+ "/")); [done|]. simpl.
      by rewrite lookup_insert_eq.
  - intros Hhome. by rewrite Hmiss, Hhome.
Qed.

Lemma visited_home_page_is_offline_fallback_witness :
  ∃ w1 w2,
    onFetch home_network true 0 0%N home_page emptyWorld
    = (Responded home_response, w1)
    ∧ onFetch no_network true 0 0%N weather_page w1
      = (Responded home_response, w2)
    ∧ fst (onFetch no_network true 0 0%N weather_page emptyWorld)
      = RespondedUndefined.
Proof.
  destruct (visited_home_page_is_offline_fallback home_network no_network
              true 0 0%N home_page weather_page emptyWorld home_response)
    as (w1 & w2 & H1 & H2 & _ & Hundefined); try reflexivity.
  exists w1, w2. split; [exact H1|]. split; [exact H2|].
  apply Hundefined. reflexivity.
Defined.

End SWMore.

(** ** Properties of the application script *)

Module AppScriptFacts.
Import AppScript.

(** *** The error log *)

(** The error log never holds more than 10 entries after an error has been
    recorded, however many it held before: it holds the new entry, which is
    its last, and before it the most recent of the old ones. *)
Theorem recordError_keeps_last_ten {A} (errors : list A) (errorInfo : A) :
  length (recordError errors errorInfo) = ((length errors + 1) `min` 10)%nat
  ∧ last (recordError errors errorInfo) = Some errorInfo
  ∧ ∃ dropped, errors ++ [errorInfo] = dropped ++ recordError errors errorInfo.
Proof.
  unfold recordError. rewrite length_app. simpl.
  destruct (10 <? length errors + 1)%nat eqn:Hlen.
  - apply Nat.ltb_lt in Hlen. split; [|split].
    + rewrite length_drop, length_app. simpl. lia.
    + rewrite drop_app_le by lia. rewrite last_app. simpl. done.
    + exists (take (length errors + 1 - 10) (errors ++ [errorInfo])).
      by rewrite take_drop.
  - apply Nat.ltb_ge in Hlen. split; [rewrite length_app; simpl; lia|].
    split; [by rewrite last_snoc|]. by exists [].
Qed.

(** *** formatRelativeTime *)

(** [formatRelativeTime] prints 'Just now' for every timestamp less than a
    minute old, timestamps in the future included.  Otherwise it prints a
    count and a unit: the count is the age in that unit rounded down, at
    least 1, below 60 for minutes and below 24 for hours. *)
Theorem relativeTime_bounds now timestamp :
  match relativeTime now timestamp with
  | None => now - timestamp < 60000
  | Some (n, unit) =>
      1 ≤ n
      ∧ ((unit = "minute" ∧ n < 60
          ∧ n * 60000 ≤ now - timestamp < (n + 1) * 60000)
         ∨ (unit = "hour" ∧ n < 24
            ∧ n * 3600000 ≤ now - timestamp < (n + 1) * 3600000)
         ∨ (unit = "day"
            ∧ n * 86400000 ≤ now - timestamp < (n + 1) * 86400000))
  end.
Proof.
  unfold relativeTime, day, hour, minute.
  change (60 * 1000) with 60000. change (60 * 60000) with 3600000.
  change (24 * 3600000) with 86400000.
  set (diff := now - timestamp).
  destruct (diff <? 60000) eqn:H1; [by apply Z.ltb_lt|].
  apply Z.ltb_ge in H1.
  assert (∀ u, 0 < u → u ≤ diff →
            1 ≤ diff / u ∧ diff / u * u ≤ diff < (diff / u + 1) * u) as Hdiv.
  { intros u Hu Hle.
    pose proof (Z.div_mod diff u ltac:(lia)) as Hdm.
    pose proof (Z.mod_pos_bound diff u Hu) as Hmod.
    assert (0 < diff / u) by (apply Z.div_str_pos; lia). nia. }
  destruct (diff <? 3600000) eqn:H2.
  - apply Z.ltb_lt in H2. destruct (Hdiv 60000) as [Hn Hb]; [lia..|].
    split; [done|]. left. split; [done|]. split; [|done].
    apply Z.div_lt_upper_bound; lia.
  - apply Z.ltb_ge in H2. destruct (diff <? 86400000) eqn:H3.
    + apply Z.ltb_lt in H3. destruct (Hdiv 3600000) as [Hn Hb]; [lia..|].
      split; [done|]. right; left. split; [done|]. split; [|done].
      apply Z.div_lt_upper_bound; lia.
    + apply Z.ltb_ge in H3. destruct (Hdiv 86400000) as [Hn Hb]; [lia..|].
      split; [done|]. right; right. by split.
Qed.

(** Ninety minutes are printed as one hour, in the singular. *)
Lemma formatRelativeTime_example :
  formatRelativeTime 5400000 0 = "1 hour ago"
  ∧ formatRelativeTime 7200000 0 = "2 hours ago"
  ∧ formatRelativeTime 0 5000 = "Just now".
Proof. repeat split; vm_compute; reflexivity. Qed.

(** *** debounce and throttle *)

(** However many calls of a debounced function arrive before its timer
    fires, one call of the wrapped function is pending: that of the last
    call, due [wait] after it.  It cannot fire earlier; when it fires, the
    wrapped function is called once, with the arguments of the last call. *)
Theorem debounce_runs_last_call {args} wait (d : debounced args)
    (calls : list (Z * args)) t a now :
  let d' :=
    foldl (λ d '(t, a), debounce_call wait t a d) d (calls ++ [(t, a)]) in
  d_timeout d' = Some (t + wait, a)
  ∧ d_calls d' = d_calls d
  ∧ (now < t + wait → debounce_fire now d' = None)
  ∧ (t + wait ≤ now →
     debounce_fire now d' = Some (Debounced None (d_calls d ++ [a]))).
Proof.
  simpl. rewrite foldl_app. simpl.
  assert (d_calls (foldl (λ d '(t, a), debounce_call wait t a d) d calls)
          = d_calls d) as Hcalls.
  { revert d. induction calls as [|[t' a'] calls IH]; intros d; [done|].
    simpl. by rewrite IH. }
  split; [done|]. split; [exact Hcalls|].
  unfold debounce_fire. simpl. rewrite Hcalls. split; intros Hnow.
  - by rewrite (proj2 (Z.leb_gt _ _)).
  - by rewrite (proj2 (Z.leb_le _ _)).
Qed.

(** When a throttled function is called while its flag is down, the wrapped
    function runs at once; the calls that follow, however many, are dropped
    until the timer has fired, [limit] after the first call, and the call
    after that runs again. *)
Theorem throttle_runs_first_call {args} limit (t : throttled args) t0 a0
    (calls : list (Z * args)) now a :
  inThrottle t = false →
  let t' :=
    foldl (λ t '(now, a), throttle_call limit now a t)
      (throttle_call limit t0 a0 t) calls in
  t_calls t' = t_calls t ++ [a0]
  ∧ (now < t0 + limit → throttle_fire now t' = None)
  ∧ (t0 + limit ≤ now →
     ∃ t'', throttle_fire now t' = Some t''
            ∧ t_calls (throttle_call limit now a t'') = t_calls t ++ [a0; a]).
Proof.
  intros Hflag. simpl.
  assert (foldl (λ t '(now, a), throttle_call limit now a t)
            (throttle_call limit t0 a0 t) calls
          = Throttled true (Some (t0 + limit)) (t_calls t ++ [a0])) as ->.
  { unfold throttle_call at 2. rewrite Hflag.
    induction calls as [|[t' a'] calls IH]; [done|]. simpl. exact IH. }
  split; [done|]. unfold throttle_fire. simpl. split; intros Hnow.
  - by rewrite (proj2 (Z.leb_gt _ _)).
  - rewrite (proj2 (Z.leb_le _ _)) by done. eexists. split; [done|].
    unfold throttle_call. simpl. by rewrite <- app_assoc.
Qed.

Lemma throttle_runs_first_call_witness :
  t_calls
    (foldl (λ t '(now, a), throttle_call 100 now a t)
       (throttle_call 100 0 "a" (Throttled false None []))
       [(10, "b"); (20, "c")])
  = ["a"].
Proof.
  destruct (throttle_runs_first_call 100 (Throttled false None []) 0 "a"
              [(10, "b"); (20, "c")] 0 "d") as [H _]; [reflexivity|].
  exact H.
Defined.

(** *** syncSOSAlerts *)

Lemma successfulSyncs_spec run :
  ∀ id, id ∈ successfulSyncs run ↔
        ∃ alert d, (alert, d) ∈ run ∧ delivered d = true
                   ∧ Offline.data_id alert = id.
Proof.
  unfold successfulSyncs.
  assert (∀ acc id,
            id ∈ foldl
                   (λ acc '(alert, d),
                      if delivered d then acc ++ [Offline.data_id alert]
                      else acc) acc run
            ↔ id ∈ acc
              ∨ ∃ alert d, (alert, d) ∈ run ∧ delivered d = true
                           ∧ Offline.data_id alert = id) as Hfold.
  { induction run as [|[b d] run IH]; intros acc id; simpl.
    - split; [by left|]. intros [?|(? & ? & ?%elem_of_nil & _)]; done.
    - rewrite IH. split.
      + intros [Hacc|(b' & d' & Hin & Hd & Hid)].
        * destruct (delivered d) eqn:Hd; [|by left].
          apply elem_of_app in Hacc as [?|Heq%list_elem_of_singleton];
            [by left|].
          right. exists b, d. split; [left|done].
        * right. exists b', d'. split; [by right|done].
      + intros [Hacc|(b' & d' & Hin & Hd & Hid)].
        * left. destruct (delivered d); [|done]. apply elem_of_app. by left.
        * apply elem_of_cons in Hin as [Heq|Hin].
          -- injection Heq as -> ->. left. rewrite Hd. apply elem_of_app.
             right. by apply list_elem_of_singleton.
          -- right. by exists b', d'. }
  intros id. rewrite Hfold. split; [|by right].
  by intros [?%elem_of_nil|?].
Qed.

(** [syncSOSAlerts] sends one request for every alert, in order, whether or
    not earlier ones failed.  The list it writes back holds, in their order,
    the alerts whose [id] is not the [id] of an alert that was answered with
    [ok]: when no request is answered with [ok] nothing is removed, and an
    alert that was not delivered is removed too when it shares its [id] with
    one that was. *)
Theorem syncSOSAlerts_removes_delivered_ids run :
  fst (syncSOSAlerts run) = fst <$> run
  ∧ snd (syncSOSAlerts run) `sublist_of` fst <$> run
  ∧ (∀ alert,
       alert ∈ snd (syncSOSAlerts run) ↔
         alert ∈ fst <$> run
         ∧ ∀ other d, (other, d) ∈ run → delivered d = true →
             Offline.data_id other ≠ Offline.data_id alert)
  ∧ ((∀ alert d, (alert, d) ∈ run → delivered d = false) →
     snd (syncSOSAlerts run) = fst <$> run).
Proof.
  unfold syncSOSAlerts. simpl. split; [done|]. split; [apply sublist_filter|].
  assert (∀ alert,
            Offline.data_id alert ∉ successfulSyncs run ↔
              ∀ other d, (other, d) ∈ run → delivered d = true →
                Offline.data_id other ≠ Offline.data_id alert) as Hnot.
  { intros alert. rewrite successfulSyncs_spec. split.
    - intros Hno other d Hin Hd Hid. apply Hno. by exists other, d.
    - intros Hall (other & d & Hin & Hd & Hid). by apply (Hall other d). }
  split.
  - intros alert. rewrite list_elem_of_filter, Hnot. tauto.
  - intros Hnone.
    induction (fst <$> run) as [|alert l IH]; [done|].
    rewrite filter_cons, decide_True; [by rewrite IH|].
    apply Hnot. intros other d Hin Hd. rewrite (Hnone _ _ Hin) in Hd.
    discriminate Hd.
Qed.

End AppScriptFacts.
